(** * goscaffold: the request tracker, the guarded HTTP handler and Listen

    A shallow embedding of [requestTracker] (tracker.go), of
    [httpHandler.ServeHTTP] and of [HTTPScaffold.Open/Listen/Shutdown]
    (scaffold.go), with the properties of the graceful-shutdown logic.

    Modelling choices, each taken from the Go source:
    - a Go [error] is [option string]: [None] is the nil error, [Some m] an
      error whose [Error()] text is [m];
    - a buffered channel keeps every value ever sent together with the number
      of values already received, so its buffer is the unreceived suffix;
    - a function that can block or panic runs in the monad [M]: a state
      transformer whose result is [Done], [Panics] or [Blocks];
    - goroutines interleave at the granularity of one call of [start], [end],
      [shutdown] and one iteration of [trackerLoop]; a call or an iteration
      that would block is taken when it can complete;
    - [Listen] waits in its receive while the other goroutines run:
      [Listen_while] is [Listen] with their steps between its opening part
      and its receive;
    - time is a clock in nanoseconds, a timer is its expiry on that clock;
    - [activeRequests] is a Go [int]: 64 bits, wrap-around written out. *)

From Stdlib Require Import ZArith Lia.
From stdpp Require Import base option list strings gmap.

Local Open Scope Z_scope.

(** ** Go values *)

Definition error : Type := option string.

(** A [*error]: what [shutdown] stores is [&reason]. *)
Inductive errorPtr : Type :=
  | NilPtr
  | PtrTo (e : error).

(** [atomic.Value] holding a [*error]: [None] until the first [Store]. *)
Definition atomicValue : Type := option errorPtr.

Definition MaxInt64 : Z := 2 ^ 63 - 1.

(** Go [int] arithmetic on a 64-bit platform. *)
Definition wrap64 (z : Z) : Z := (z + 2 ^ 63) mod 2 ^ 64 - 2 ^ 63.

(** The runtime's [when(d)]: the absolute expiry of a timer set for [d]
    nanoseconds at time [now], saturating at [MaxInt64]. *)
Definition when (now d : Z) : Z :=
  if d <=? 0 then now
  else if MaxInt64 <? now + d then MaxInt64 else now + d.

Arguments wrap64 : simpl never.

(** ** Results: return, panic, block *)

(** [Done (a, s)]: returned [a] in state [s]; [Panics s]: panicked in state
    [s], what follows in the function is skipped; [Blocks]: waits on a channel
    operation that is not ready. *)
Inductive result (S A : Type) : Type :=
  | Done (r : A * S)
  | Panics (s : S)
  | Blocks.
Arguments Done {S A} r.
Arguments Panics {S A} s.
Arguments Blocks {S A}.

Definition M (S A : Type) : Type := S → result S A.

#[global] Instance M_ret {S} : MRet (M S) := λ A a s, Done (a, s).
#[global] Instance M_bind {S} : MBind (M S) := λ A B f m s,
  match m s with
  | Done (a, s') => f a s'
  | Panics s' => Panics s'
  | Blocks => Blocks
  end.

Definition gets {S A} (f : S → A) : M S A := λ s, Done (f s, s).
Definition modify {S} (f : S → S) : M S unit := λ s, Done (tt, f s).
Definition block {S A} : M S A := λ _, Blocks.

(** ** Channels *)

Record chan (A : Type) : Type := mkChan {
  sent : list A;   (* every value sent so far, oldest first *)
  nrecv : nat;     (* how many of them have been received *)
  cap : nat        (* make(chan A, cap) *)
}.
Arguments mkChan {A} sent nrecv cap.
Arguments sent {A} c.
Arguments nrecv {A} c.
Arguments cap {A} c.

Definition make {A} (n : nat) : chan A := mkChan [] 0 n.

(** The values sitting in the buffer. *)
Definition buffered {A} (c : chan A) : list A := drop (nrecv c) (sent c).

Arguments buffered : simpl never.

(** [c <- x]: blocks while the buffer is full. *)
Definition chan_send {A} (c : chan A) (x : A) : option (chan A) :=
  if decide (length (buffered c) < cap c)%nat
  then Some (mkChan (sent c ++ [x]) (nrecv c) (cap c))
  else None.

(** [<-c]: blocks while the buffer is empty. *)
Definition chan_recv {A} (c : chan A) : option (A * chan A) :=
  match buffered c with
  | [] => None
  | x :: _ => Some (x, mkChan (sent c) (S (nrecv c)) (cap c))
  end.

(** ** tracker.go *)

(** values for the command channel *)
Module Cmd.
Inductive t : Type :=
  | startRequest
  | endRequest
  | shutdown.

#[global] Instance eq_dec : EqDecision t.
Proof. solve_decision. Defined.
End Cmd.

Record requestTracker : Type := mkTracker {
  C : chan error;
  shutdownWait : Z;
  shuttingDown : Z;
  shutdownReason : atomicValue;
  commandChan : chan Cmd.t
}.

Definition set_C (c : chan error) (t : requestTracker) : requestTracker :=
  mkTracker c (shutdownWait t) (shuttingDown t) (shutdownReason t) (commandChan t).
Definition set_shuttingDown (v : Z) (t : requestTracker) : requestTracker :=
  mkTracker (C t) (shutdownWait t) v (shutdownReason t) (commandChan t).
Definition set_shutdownReason (v : atomicValue) (t : requestTracker) : requestTracker :=
  mkTracker (C t) (shutdownWait t) (shuttingDown t) v (commandChan t).
Definition set_commandChan (c : chan Cmd.t) (t : requestTracker) : requestTracker :=
  mkTracker (C t) (shutdownWait t) (shuttingDown t) (shutdownReason t) c.

(** The memory operations of the tracker's methods. *)
Definition LoadInt32_shuttingDown : M requestTracker Z := gets shuttingDown.
Definition StoreInt32_shuttingDown (v : Z) : M requestTracker unit :=
  modify (set_shuttingDown v).

(** [t.shutdownReason.Load()] asserted to be a pointer to an error: [Load] of
    a value never stored gives the nil interface, on which the type assertion
    panics. *)
Definition Load_shutdownReason : M requestTracker errorPtr :=
  λ t, match shutdownReason t with
       | None => Panics t
       | Some p => Done (p, t)
       end.
Definition Store_shutdownReason (p : errorPtr) : M requestTracker unit :=
  modify (set_shutdownReason (Some p)).

Definition send_commandChan (c : Cmd.t) : M requestTracker unit :=
  λ t, match chan_send (commandChan t) c with
       | Some ch => Done (tt, set_commandChan ch t)
       | None => Blocks
       end.
Definition recv_commandChan : M requestTracker Cmd.t :=
  λ t, match chan_recv (commandChan t) with
       | Some (c, ch) => Done (c, set_commandChan ch t)
       | None => Blocks
       end.
Definition send_C (e : error) : M requestTracker unit :=
  λ t, match chan_send (C t) e with
       | Some ch => Done (tt, set_C ch t)
       | None => Blocks
       end.
Definition recv_C : M requestTracker error :=
  λ t, match chan_recv (C t) with
       | Some (e, ch) => Done (e, set_C ch t)
       | None => Blocks
       end.

(** [start]: nil lets the request proceed, an error makes it fail. *)
Definition start : M requestTracker error :=
  sd ← LoadInt32_shuttingDown;
  if decide (sd ≠ 0) then
    reason ← Load_shutdownReason;
    match reason with
    | NilPtr => mret None
    | PtrTo e => mret e
    end
  else
    send_commandChan Cmd.startRequest;;
    mret None.

Definition end_ : M requestTracker unit :=
  send_commandChan Cmd.endRequest.

Definition shutdown (reason : error) : M requestTracker unit :=
  Store_shutdownReason (PtrTo reason);;
  send_commandChan Cmd.shutdown.

Definition sendStop (sent : bool) : M requestTracker bool :=
  if negb sent then
    reason ← Load_shutdownReason;
    match reason with
    | NilPtr => mret false
    | PtrTo e => send_C e;; mret true
    end
  else mret true.

(** The local variables of [trackerLoop]. [graceTimer] is the expiry of the
    timer, [None] once it has fired and not been reset. *)
Record loopVars : Type := mkVars {
  activeRequests : Z;
  stopping : bool;
  sentStop : bool;
  graceTimer : option Z
}.

(** The two cases of the [select]. *)
Inductive selectCase : Type :=
  | RecvCommand
  | RecvTimer.

(** What [trackerLoop] runs before its loop: the timer is created with
    [time.Duration(math.MaxInt64)]. *)
Definition trackerLoop_init (now : Z) : loopVars :=
  mkVars 0 false false (Some (when now MaxInt64)).

(** One iteration of [for !sentStop { select { ... } }], for the case the
    [select] takes; a case that is not ready blocks. *)
Definition trackerLoop_iter (now : Z) (sel : selectCase) (l : loopVars)
  : M requestTracker loopVars :=
  match sel with
  | RecvCommand =>
      cmd ← recv_commandChan;
      match cmd with
      | Cmd.startRequest =>
          mret (mkVars (wrap64 (activeRequests l + 1)) (stopping l) (sentStop l)
                       (graceTimer l))
      | Cmd.endRequest =>
          let a := wrap64 (activeRequests l - 1) in
          if stopping l && bool_decide (a = 0) then
            s ← sendStop (sentStop l);
            mret (mkVars a (stopping l) s (graceTimer l))
          else mret (mkVars a (stopping l) (sentStop l) (graceTimer l))
      | Cmd.shutdown =>
          StoreInt32_shuttingDown 1;;
          if decide (activeRequests l ≤ 0) then
            s ← sendStop (sentStop l);
            mret (mkVars (activeRequests l) true s (graceTimer l))
          else
            wait ← gets shutdownWait;
            mret (mkVars (activeRequests l) true (sentStop l)
                         (Some (when now wait)))
      end
  | RecvTimer =>
      match graceTimer l with
      | Some d =>
          if decide (d ≤ now) then
            s ← sendStop (sentStop l);
            mret (mkVars (activeRequests l) (stopping l) s None)
          else block
      | None => block
      end
  end.

(** [startRequestTracker]: the struct; the [go rt.trackerLoop()] it starts is
    the [vars] component of the [system] below. *)
Definition startRequestTracker (shutdownWait : Z) : requestTracker :=
  mkTracker (make 1) shutdownWait 0 None (make 100).

(** ** The tracker and its goroutines as a transition system *)

(** What the goroutines around the tracker do, one step each. *)
Inductive event : Type :=
  | CallStart                      (* a request goroutine runs start() *)
  | CallEnd                        (* a request goroutine runs end() *)
  | CallShutdown (reason : error)  (* some goroutine runs shutdown(reason) *)
  | LoopCommand                    (* trackerLoop takes case cmd := <-t.commandChan *)
  | LoopTimer                      (* trackerLoop takes case <-graceTimer.C *)
  | Tick (d : Z)                   (* d nanoseconds pass *)
  | ReceiveC.                      (* the waiter takes a value from t.C *)

(** What the callers saw. *)
Inductive obs : Type :=
  | Started (r : error)
  | Panicked
  | Ended
  | ShutdownCalled (reason : error)
  | Received (e : error).

Record system : Type := mkSystem {
  rt : requestTracker;     (* the struct every goroutine shares *)
  vars : loopVars;         (* the locals of the trackerLoop goroutine *)
  clock : Z;               (* the monotonic clock, in nanoseconds *)
  crashed : bool;          (* trackerLoop panicked: the process is gone *)
  history : list obs       (* most recent first *)
}.

Definition init (shutdownWait now : Z) : system :=
  mkSystem (startRequestTracker shutdownWait) (trackerLoop_init now) now false [].

(** A call made by a goroutine other than trackerLoop. A call that would
    block is not taken: it is taken later, when it can complete. A panic in a
    request goroutine is recovered by net/http and leaves the tracker as it
    was. *)
Definition call {A} (m : M requestTracker A) (o : A → obs) (s : system)
  : option system :=
  match m (rt s) with
  | Done (a, t') => Some (mkSystem t' (vars s) (clock s) false (o a :: history s))
  | Panics t' => Some (mkSystem t' (vars s) (clock s) false (Panicked :: history s))
  | Blocks => None
  end.

(** One iteration of trackerLoop, which runs only while [!sentStop]. A panic
    in this goroutine is not recovered: the process dies, and the state is
    kept as it was when the iteration began, with [crashed] set. *)
Definition loop_step (sel : selectCase) (s : system) : option system :=
  if sentStop (vars s) then None
  else match trackerLoop_iter (clock s) sel (vars s) (rt s) with
       | Done (l', t') => Some (mkSystem t' l' (clock s) false (history s))
       | Panics _ => Some (mkSystem (rt s) (vars s) (clock s) true (history s))
       | Blocks => None
       end.

Definition step (s : system) (ev : event) : option system :=
  if crashed s then None
  else match ev with
       | CallStart => call start Started s
       | CallEnd => call end_ (λ _, Ended) s
       | CallShutdown reason => call (shutdown reason) (λ _, ShutdownCalled reason) s
       | LoopCommand => loop_step RecvCommand s
       | LoopTimer => loop_step RecvTimer s
       | Tick d =>
           if decide (0 ≤ d)
           then Some (mkSystem (rt s) (vars s) (clock s + d) false (history s))
           else None
       | ReceiveC => call recv_C Received s
       end.

Fixpoint exec (s : system) (tr : list event) : option system :=
  match tr with
  | [] => Some s
  | ev :: tr' =>
      match step s ev with
      | Some s' => exec s' tr'
      | None => None
      end
  end.

(** Requests admitted and not yet ended, as the callers saw it. *)
Fixpoint inflight (h : list obs) : Z :=
  match h with
  | [] => 0
  | Started None :: h' => inflight h' + 1
  | Ended :: h' => inflight h' - 1
  | _ :: h' => inflight h'
  end.

(** The [start] calls that returned nil, and the [end] calls. *)
Fixpoint admissions (h : list obs) : nat :=
  match h with
  | [] => O
  | Started None :: h' => S (admissions h')
  | _ :: h' => admissions h'
  end.

Fixpoint releases (h : list obs) : nat :=
  match h with
  | [] => O
  | Ended :: h' => S (releases h')
  | _ :: h' => releases h'
  end.

(** The caller's obligation: [end] is called only for a request whose [start]
    returned nil and that has not ended yet. *)
Fixpoint paired (s : system) (tr : list event) : Prop :=
  match tr with
  | [] => True
  | ev :: tr' =>
      (ev = CallEnd → 0 < inflight (history s)) ∧
      match step s ev with
      | Some s' => paired s' tr'
      | None => True
      end
  end.

(** The reason of the most recent [shutdown] call of a trace. *)
Fixpoint last_shutdown (tr : list event) : option error :=
  match tr with
  | [] => None
  | CallShutdown r :: tr' =>
      match last_shutdown tr' with
      | Some r' => Some r'
      | None => Some r
      end
  | _ :: tr' => last_shutdown tr'
  end.

(** The phase of the spec's state machine, read off trackerLoop's locals. *)
Inductive phase : Type :=
  | Active
  | Draining
  | Stopped.

Definition phase_of (l : loopVars) : phase :=
  if sentStop l then Stopped
  else if stopping l then Draining else Active.








(** *** The run that lets the tracker settle

    No further calls arrive, trackerLoop takes the commands left in the
    channel, then the time left on the grace timer passes and the timer
    fires. A step that is not enabled is skipped. *)

Definition try_step (s : system) (ev : event) : system :=
  default s (step s ev).

Fixpoint drain (n : nat) (s : system) : system :=
  match n with
  | O => s
  | S n' => drain n' (try_step s LoopCommand)
  end.

Definition time_left (s : system) : Z :=
  match graceTimer (vars s) with
  | Some d => Z.max 0 (d - clock s)
  | None => 0
  end.

Definition settle (s : system) : system :=
  let s1 := drain (length (buffered (commandChan (rt s)))) s in
  try_step (try_step s1 (Tick (time_left s1))) LoopTimer.


(** *** Invariants *)

(** What holds in every reachable state. *)
Record Inv (s : system) : Prop := mkInv {
  inv_cap_C : cap (C (rt s)) = 1%nat;
  inv_nrecv_cmd :
    (nrecv (commandChan (rt s)) ≤ length (sent (commandChan (rt s))))%nat;
  inv_reason : shutdownReason (rt s) ≠ Some NilPtr;
  inv_sent_reason :
    Cmd.shutdown ∈ sent (commandChan (rt s)) → shutdownReason (rt s) ≠ None;
  inv_flag : shuttingDown (rt s) = if stopping (vars s) then 1 else 0;
  inv_processed :
    Cmd.shutdown ∈ take (nrecv (commandChan (rt s))) (sent (commandChan (rt s)))
    ↔ stopping (vars s) = true;
  inv_C_alive : sentStop (vars s) = false → sent (C (rt s)) = [];
  inv_C_dead : sentStop (vars s) = true → length (sent (C (rt s))) = 1%nat;
  inv_timer : sentStop (vars s) = false → is_Some (graceTimer (vars s));
  inv_crashed :
    crashed s = true → shutdownReason (rt s) = None ∧ sentStop (vars s) = false
}.

(** What the commands still in the channel will do to a count [a], while
    the callers have [o] requests in flight: before a shutdown command the
    count never goes below zero and ends no lower than [o]. *)
Fixpoint safeq (a o : Z) (q : list Cmd.t) : Prop :=
  match q with
  | [] => o ≤ a
  | Cmd.startRequest :: q' => safeq (a + 1) o q'
  | Cmd.endRequest :: q' => 1 ≤ a ∧ safeq (a - 1) o q'
  | Cmd.shutdown :: _ => True
  end.

(** What holds after [n] steps of a run in which the callers pair [start]
    and [end]. *)
Record Safe (n : Z) (s : system) : Prop := mkSafe {
  safe_nonneg : 0 ≤ activeRequests (vars s);
  safe_bound : activeRequests (vars s) ≤ n;
  safe_draining :
    stopping (vars s) = true → sentStop (vars s) = false →
    0 < activeRequests (vars s);
  safe_queue :
    stopping (vars s) = false →
    safeq (activeRequests (vars s)) (inflight (history s))
          (buffered (commandChan (rt s)))
}.

Definition delta (c : Cmd.t) : Z :=
  match c with
  | Cmd.startRequest => 1
  | Cmd.endRequest => -1
  | Cmd.shutdown => 0
  end.

(** The net effect on the count of the commands in [q]. *)
Fixpoint balance (q : list Cmd.t) : Z :=
  match q with
  | [] => 0
  | c :: q' => delta c + balance q'
  end.

Definition admitted_or_ended (o : obs) : Prop := o = Started None ∨ o = Ended.

(** What holds after [n] steps of a run without a shutdown call. *)
Record Quiet (n : Z) (s : system) : Prop := mkQuiet {
  quiet_flag : shuttingDown (rt s) = 0;
  quiet_reason : shutdownReason (rt s) = None;
  quiet_sentStop : sentStop (vars s) = false;
  quiet_cmds : Cmd.shutdown ∉ buffered (commandChan (rt s));
  quiet_nrecv :
    (nrecv (commandChan (rt s)) ≤ length (sent (commandChan (rt s))))%nat;
  quiet_C : buffered (C (rt s)) = [];
  quiet_history : Forall admitted_or_ended (history s);
  quiet_balance :
    activeRequests (vars s) + balance (buffered (commandChan (rt s)))
    = inflight (history s);
  quiet_bound : - n ≤ activeRequests (vars s) ≤ n
}.

(** ** scaffold.go: the guarded handler *)

(** [http.ResponseWriter]: the header map, what [WriteHeader] sent (the
    status and the header as it was then), and the chunks written. *)
Record ResponseWriter : Type := mkResp {
  header : gmap string (list string);
  wroteHeader : option (Z * gmap string (list string));
  body : list string
}.

Definition newResponse : ResponseWriter := mkResp ∅ None [].

(** [resp.Header().Set(k, v)] *)
Definition Header_Set (k v : string) (w : ResponseWriter) : ResponseWriter :=
  mkResp (<[k := [v]]> (header w)) (wroteHeader w) (body w).

(** [resp.WriteHeader(code)]: only the first call counts. *)
Definition WriteHeader (code : Z) (w : ResponseWriter) : ResponseWriter :=
  match wroteHeader w with
  | None => mkResp (header w) (Some (code, header w)) (body w)
  | Some _ => w
  end.

Definition StatusOK : Z := 200.
Definition StatusServiceUnavailable : Z := 503.

(** [resp.Write(b)]: sends the header with status 200 if none was sent. *)
Definition Write (b : string) (w : ResponseWriter) : ResponseWriter :=
  let w' := WriteHeader StatusOK w in
  mkResp (header w') (wroteHeader w') (body w' ++ [b]).

(** What one request goroutine works on: the tracker it shares, its response
    writer, and the state [D] that the wrapped handler owns. *)
Record conn (D : Type) : Type := mkConn {
  tracker_of : requestTracker;
  resp : ResponseWriter;
  downstream : D
}.
Arguments mkConn {D} tracker_of resp downstream.
Arguments tracker_of {D} c.
Arguments resp {D} c.
Arguments downstream {D} c.

(** The [http.Handler] interface. A handler returns or panics. *)
Class Handler (Request D : Type) : Type :=
  handler_ServeHTTP : Request → M (ResponseWriter * D) unit.

(** What the handler uses and this file does not define: [SelectMediaType]
    of this package, and [json.Marshal] on a [map[string]string]. *)
Record Env (Request : Type) : Type := mkEnv {
  SelectMediaType : Request → list string → string;
  json_Marshal : gmap string string → string
}.
Arguments SelectMediaType {Request} e req supported.
Arguments json_Marshal {Request} e m.

Definition on_tracker {D A} (m : M requestTracker A) : M (conn D) A :=
  λ c, match m (tracker_of c) with
       | Done (a, t') => Done (a, mkConn t' (resp c) (downstream c))
       | Panics t' => Panics (mkConn t' (resp c) (downstream c))
       | Blocks => Blocks
       end.

Definition on_resp {D} (f : ResponseWriter → ResponseWriter) : M (conn D) unit :=
  modify (λ c, mkConn (tracker_of c) (f (resp c)) (downstream c)).

Definition on_downstream {D A} (m : M (ResponseWriter * D) A) : M (conn D) A :=
  λ c, match m (resp c, downstream c) with
       | Done (a, (w, d)) => Done (a, mkConn (tracker_of c) w d)
       | Panics (w, d) => Panics (mkConn (tracker_of c) w d)
       | Blocks => Blocks
       end.

(** [httpHandler.ServeHTTP] *)
Definition ServeHTTP {Request D} (env : Env Request) (handler : Handler Request D)
    (req : Request) : M (conn D) unit :=
  startErr ← on_tracker start;
  match startErr with
  | None =>
      on_downstream (handler_ServeHTTP req);;
      on_tracker end_
  | Some message =>
      let mt := SelectMediaType env req ["text/plain"; "application/json"] in
      on_resp (Header_Set "Content-Type" mt);;
      on_resp (WriteHeader StatusServiceUnavailable);;
      if decide (mt = "application/json") then
        let re : gmap string string :=
          <["error" := "Stopping"]> (<["message" := message]> ∅) in
        on_resp (Write (json_Marshal env re))
      else
        on_resp (Write message)
  end.

(** ** scaffold.go: the scaffold *)

(** [DefaultGraceTimeout = 30 * time.Second], in nanoseconds. *)
Definition DefaultGraceTimeout : Z := 30 * 1000000000.

(** A [net.Listener], with the number of times [Close] was called on it. *)
Record Listener : Type := mkListener {
  Addr : string;
  closeCalls : nat
}.

Definition Close (l : Listener) : Listener :=
  mkListener (Addr l) (S (closeCalls l)).

(** [tracker] is nil until [Open]; after it, it is the tracker together with
    the trackerLoop goroutine that [startRequestTracker] started. *)
Record HTTPScaffold : Type := mkScaffold {
  insecurePort : Z;
  open : bool;
  tracker : option system;
  insecureListener : option Listener
}.

Definition CreateHTTPScaffold : HTTPScaffold := mkScaffold 0 false None None.

Definition SetInsecurePort (ip : Z) (s : HTTPScaffold) : HTTPScaffold :=
  mkScaffold ip (open s) (tracker s) (insecureListener s).

(** [Open]; [ListenTCP] is [net.ListenTCP] on the given port, [now] the time
    at which the tracker's timer is created. *)
Definition Open (ListenTCP : Z → Listener + string) (now : Z)
  : M HTTPScaffold error :=
  λ s,
    let t := Some (init DefaultGraceTimeout now) in
    match ListenTCP (insecurePort s) with
    | inr err => Done (Some err, mkScaffold (insecurePort s) (open s) t (insecureListener s))
    | inl il => Done (None, mkScaffold (insecurePort s) true t (Some il))
    end.

(** [err := <-s.tracker.C] *)
Definition await_C : M HTTPScaffold error :=
  λ s, match tracker s with
       | None => Panics s
       | Some sys =>
           match recv_C (rt sys) with
           | Done (err, t') =>
               let sys' := mkSystem t' (vars sys) (clock sys) (crashed sys)
                                    (Received err :: history sys) in
               Done (err, mkScaffold (insecurePort s) (open s) (Some sys')
                                     (insecureListener s))
           | Panics _ => Panics s
           | Blocks => Blocks
           end
       end.

(** [s.insecureListener.Close()] *)
Definition close_listener : M HTTPScaffold unit :=
  λ s, match insecureListener s with
       | None => Panics s
       | Some il =>
           Done (tt, mkScaffold (insecurePort s) (open s) (tracker s)
                                (Some (Close il)))
       end.

(** [Listen] up to [go http.Serve(s.insecureListener, handler)]: [Some err]
    when it has returned [err] already. *)
Definition Listen_begin (ListenTCP : Z → Listener + string) (now : Z)
  : M HTTPScaffold (option error) :=
  opened ← gets open;
  if negb opened then
    err ← Open ListenTCP now;
    match err with
    | Some e => mret (Some (Some e))
    | None =>
        modify (λ s, mkScaffold (insecurePort s) true (tracker s)
                                (insecureListener s));;
        mret None
    end
  else mret None.

(** [Listen] from [err := <-s.tracker.C] on. *)
Definition Listen_end : M HTTPScaffold error :=
  err ← await_C;
  close_listener;;
  mret err.

Definition Listen (ListenTCP : Z → Listener + string) (now : Z)
  : M HTTPScaffold error :=
  early ← Listen_begin ListenTCP now;
  match early with
  | Some err => mret err
  | None => Listen_end
  end.

(** [Shutdown]: [s.tracker.shutdown(reason)] *)
Definition Shutdown (reason : error) : M HTTPScaffold unit :=
  λ s, match tracker s with
       | None => Panics s
       | Some sys =>
           match step sys (CallShutdown reason) with
           | Some sys' =>
               Done (tt, mkScaffold (insecurePort s) (open s) (Some sys')
                                    (insecureListener s))
           | None => Blocks
           end
       end.

(** A step of one of the tracker's goroutines, seen from the scaffold. *)
Definition tracker_step (ev : event) : M HTTPScaffold unit :=
  λ s, match tracker s with
       | None => Panics s
       | Some sys =>
           match step sys ev with
           | Some sys' =>
               Done (tt, mkScaffold (insecurePort s) (open s) (Some sys')
                                    (insecureListener s))
           | None => Blocks
           end
       end.

(** The other goroutines at work on the tracker: the steps [tr], in order. *)
Fixpoint tracker_run (tr : list event) : M HTTPScaffold unit :=
  match tr with
  | [] => mret tt
  | ev :: tr' => tracker_step ev;; tracker_run tr'
  end.

(** The scaffold with its tracker in state [sys]. *)
Definition with_tracker (sys : system) (s : HTTPScaffold) : HTTPScaffold :=
  mkScaffold (insecurePort s) (open s) (Some sys) (insecureListener s).

(** [Listen] with the other goroutines at work while it waits in
    [err := <-s.tracker.C]: [others] is what they do to the scaffold between
    [go http.Serve(s.insecureListener, handler)] and the moment the receive
    completes. With nothing in between it is [Listen]. *)
Definition Listen_while (others : M HTTPScaffold unit)
    (ListenTCP : Z → Listener + string) (now : Z) : M HTTPScaffold error :=
  early ← Listen_begin ListenTCP now;
  match early with
  | Some err => mret err
  | None => others;; Listen_end
  end.

(** ** More of the tracker *)

(** The commands that trackerLoop has taken from a channel so far. *)
Definition processed {A} (c : chan A) : list A := take (nrecv c) (sent c).

Arguments processed : simpl never.

(** What holds after [n] steps of any run: the count is the net effect of
    the commands taken. *)
Record Counted (n : Z) (s : system) : Prop := mkCounted {
  counted_balance :
    activeRequests (vars s) = balance (processed (commandChan (rt s)));
  counted_bound : - n ≤ activeRequests (vars s) ≤ n
}.

(** The steps of the run that lets the tracker settle. *)
Definition settling (ev : event) : Prop :=
  ev = LoopCommand ∨ ev = LoopTimer ∨ ∃ d, ev = Tick d.

(** While draining, the grace timer is set and expires within
    [shutdownWait]. *)
Definition timer_within (w : Z) (s : system) : Prop :=
  stopping (vars s) = true → sentStop (vars s) = false →
  ∃ d, graceTimer (vars s) = Some d ∧ d ≤ clock s + Z.max 0 w.

(** ** The example handler *)

(** [TestListener.ServeHTTP] of the example: 200 and "Hello, World!". *)
Definition TestListener {Request} : Handler Request unit :=
  λ _, modify (λ st,
    (Write "Hello, World!"
       (WriteHeader StatusOK (Header_Set "Content-Type" "text/plain" st.1)),
     st.2)).

(** ** More of the scaffold *)

(** [InsecureAddress]: [s.insecureListener.Addr().String()]; the call on a
    nil listener panics. *)
Definition InsecureAddress : M HTTPScaffold string :=
  λ s, match insecureListener s with
       | None => Panics s
       | Some il => Done (Addr il, s)
       end.

(** [ErrSignalCaught = errors.New("Caught shutdown signal")] *)
Definition ErrSignalCaught : error := Some "Caught shutdown signal".

(** The signals that [CatchSignals] asks to be notified of. *)
Inductive Signal : Type :=
  | SIGINT
  | SIGTERM
  | SIGHUP.

(** What [dumpStack] uses of the runtime: [Stack i n] is what the [i]-th
    call of [runtime.Stack(stackBuf, true)] returns on a buffer of [n] bytes,
    the number of bytes written; [alloc n] tells whether
    [make([]byte, n)] succeeds, it panics otherwise. *)
Record Runtime : Type := mkRuntime {
  Stack : nat → Z → Z;
  alloc : Z → bool
}.

(** [runtime.Stack] writes at most the buffer; [make] refuses a negative
    length. *)
Record well_behaved (rtm : Runtime) : Prop := mkWellBehaved {
  Stack_range : ∀ i n, 0 ≤ n → 0 ≤ Stack rtm i n ≤ n;
  alloc_nonneg : ∀ n, alloc rtm n = true → 0 ≤ n
}.

Inductive dumpOutcome : Type :=
  | Printed (w : Z)   (* the loop ended and stackBuf[:w] went to stderr *)
  | DumpPanics        (* make panicked *)
  | Spinning.         (* still in the loop after [fuel] iterations *)

(** The loop [for w < stackSize { ... }] of [dumpStack], entered for the
    [i]-th call of [runtime.Stack]. *)
Fixpoint dumpStack_loop (rtm : Runtime) (fuel i : nat) (w stackSize : Z)
  : dumpOutcome :=
  if decide (w < stackSize) then
    match fuel with
    | O => Spinning
    | S fuel' =>
        let w' := Stack rtm i stackSize in
        if decide (w' = stackSize) then
          let stackSize' := wrap64 (stackSize * 2) in
          if alloc rtm stackSize'
          then dumpStack_loop rtm fuel' (S i) w' stackSize'
          else DumpPanics
        else dumpStack_loop rtm fuel' (S i) w' stackSize
    end
  else Printed w.

Definition dumpStack (rtm : Runtime) (fuel : nat) : dumpOutcome :=
  if alloc rtm 32767 then dumpStack_loop rtm fuel 0 0 32767 else DumpPanics.

(** Where the goroutine that [CatchSignals] starts is. *)
Inductive catcher : Type :=
  | Waiting       (* in sig := <-sigChan *)
  | Returned      (* after s.Shutdown(ErrSignalCaught); signal.Reset() *)
  | InDumpStack.  (* in dumpStack *)

(** The goroutine of [CatchSignals] on the signals [sigs] that arrive on
    [sigChan], in order. [signal.Reset] gives the signals back their default
    effect on the process, which is outside the scaffold. *)
Fixpoint catch_signals (rtm : Runtime) (fuel : nat) (sigs : list Signal)
  : M HTTPScaffold catcher :=
  match sigs with
  | [] => mret Waiting
  | sig :: rest =>
      match sig with
      | SIGINT | SIGTERM =>
          Shutdown ErrSignalCaught;;
          mret Returned
      | SIGHUP =>
          match dumpStack rtm fuel with
          | Printed _ => catch_signals rtm fuel rest
          | DumpPanics => λ s, Panics s
          | Spinning => mret InDumpStack
          end
      end
  end.

(** ** pem.go *)

(** A [pem.Block]. *)
Record Block : Type := mkBlock {
  Type_ : string;
  Headers : gmap string string;
  Bytes : list Byte.byte
}.

(** What pem.go uses of the Go library. A [*pem.Block] is [None] when nil,
    and so is what [pem.Decode] returns on input without PEM data. A result
    [None] of a function that takes a pointer is a panic. Errors are given by
    their message. *)
Record Library (PrivateKey : Type) : Type := mkLibrary {
  ReadFile : string → list Byte.byte + string;
  pem_Decode : list Byte.byte → option Block;
  IsEncryptedPEMBlock : option Block → option bool;
  DecryptPEMBlock :
    option Block → list Byte.byte → option (list Byte.byte + string);
  ParsePKCS1PrivateKey : list Byte.byte → PrivateKey + string
}.

Arguments ReadFile {_} _ _.
Arguments pem_Decode {_} _ _.
Arguments IsEncryptedPEMBlock {_} _ _.
Arguments DecryptPEMBlock {_} _ _ _.
Arguments ParsePKCS1PrivateKey {_} _ _.

(** [decodePEM]: the bytes, the block type and the error; [None] when it
    panics. [pwFunc] is [None] when nil. A nil slice is the empty list. *)
Definition decodePEM {PrivateKey} (lib : Library PrivateKey)
    (fileName : string) (pwFunc : option (unit → list Byte.byte))
  : option (list Byte.byte * string * error) :=
  match ReadFile lib fileName with
  | inr err => Some ([], "", Some err)
  | inl pb =>
      let block := pem_Decode lib pb in
      enc ← IsEncryptedPEMBlock lib block;
      if enc : bool then
        match pwFunc with
        | None =>
            Some ([], "", Some "Cannot read encrypted file without password")
        | Some f =>
            r ← DecryptPEMBlock lib block (f ());
            match r with
            | inr err => Some ([], "", Some err)
            | inl dec => b ← block; Some (dec, Type_ b, None)
            end
        end
      else b ← block; Some (Bytes b, Type_ b, None)
  end.

(** A [tls.Certificate], as far as pem.go fills it. *)
Record tlsCertificate (PrivateKey : Type) : Type := mkCertificate {
  Certificate : list (list Byte.byte);
  PrivateKey_ : option PrivateKey
}.

Arguments mkCertificate {_} _ _.
Arguments Certificate {_} _.
Arguments PrivateKey_ {_} _.

(** [getCertificate]; [None] when it panics. *)
Definition getCertificate {PrivateKey} (lib : Library PrivateKey)
    (certFile keyFile : string) (pwFunc : option (unit → list Byte.byte))
  : option (tlsCertificate PrivateKey * error) :=
  let ret := mkCertificate [] None in
  '(certBytes, _, err) ← decodePEM lib certFile None;
  match err with
  | Some _ => Some (ret, err)
  | None =>
      let ret := mkCertificate [certBytes] None in
      '(keyBytes, keyType, err) ← decodePEM lib keyFile pwFunc;
      match err with
      | Some _ => Some (ret, err)
      | None =>
          if decide (keyType = "RSA PRIVATE KEY") then
            match ParsePKCS1PrivateKey lib keyBytes with
            | inr err => Some (ret, Some err)
            | inl pk => Some (mkCertificate [certBytes] (Some pk), None)
            end
          else Some (ret, Some ("Invalid private key type " +:+ keyType))
      end
  end.

(** An instance of the library over four files, for examples: a
    certificate, an RSA key, an encrypted certificate and a file without PEM
    data. As in Go, [IsEncryptedPEMBlock] looks for the header DEK-Info and
    panics on a nil block. *)
Definition four_files : Library (list Byte.byte) :=
  mkLibrary (list Byte.byte)
    (λ f, if decide (f = "cert.pem") then inl [Byte.x01]
          else if decide (f = "key.pem") then inl [Byte.x02]
          else if decide (f = "enc.pem") then inl [Byte.x03]
          else if decide (f = "empty.pem") then inl []
          else inr ("open " +:+ f +:+ ": no such file or directory"))
    (λ pb, match pb with
           | [Byte.x01] => Some (mkBlock "CERTIFICATE" ∅ [Byte.x30])
           | [Byte.x02] => Some (mkBlock "RSA PRIVATE KEY" ∅ [Byte.x31])
           | [Byte.x03] =>
               Some (mkBlock "CERTIFICATE"
                       {["DEK-Info" := "AES-128-CBC,00"]} [Byte.x32])
           | _ => None
           end)
    (λ b, b' ← b; Some (bool_decide (is_Some (Headers b' !! "DEK-Info"))))
    (λ b pw, b' ← b; Some (inr "x509: decryption password incorrect"))
    (λ der, inl der).

(** * Proofs *)

(** ** Tactics *)

Ltac unfold_ops :=
  unfold trackerLoop_iter, start, end_, shutdown, sendStop,
    LoadInt32_shuttingDown, StoreInt32_shuttingDown, Load_shutdownReason,
    Store_shutdownReason, send_commandChan, recv_commandChan, send_C, recv_C,
    chan_send, chan_recv, block, gets, modify, mbind, mret, M_bind, M_ret in *.

(** Case analysis of one step, down to the branch the source takes. *)
Ltac step_inv H :=
  unfold step, call, loop_step in H; unfold_ops;
  repeat (simplify_eq/=;
          match goal with
          | H' : context [match ?x with _ => _ end] |- _ =>
              lazymatch type of H' with
              | _ = Some _ => destruct x eqn:?
              | _ = None => destruct x eqn:?
              | _ = Done _ => destruct x eqn:?
              | _ = Panics _ => destruct x eqn:?
              | _ = Blocks => destruct x eqn:?
              end
          end);
  simplify_eq/=.

Ltac use_eqs :=
  repeat match goal with
    | H : ?a = ?a → _ |- _ => specialize (H eq_refl)
    | H : _ && _ = true |- _ => apply andb_true_iff in H as [? ?]
    | H : bool_decide _ = true |- _ => apply bool_decide_eq_true in H
    | H : bool_decide _ = false |- _ => apply bool_decide_eq_false in H
    end.

(** ** Channels *)

Lemma take_S_buffered {A} (c : chan A) x q :
  buffered c = x :: q →
  take (S (nrecv c)) (sent c) = take (nrecv c) (sent c) ++ [x]
  ∧ (S (nrecv c) ≤ length (sent c))%nat.
Proof.
  unfold buffered. intros Hd.
  assert (Hl : sent c !! nrecv c = Some x).
  { pose proof (lookup_drop (sent c) (nrecv c) 0) as E.
    rewrite Hd in E. simpl in E. rewrite Nat.add_0_r in E. done. }
  split; [by apply take_S_r|].
  apply lookup_lt_Some in Hl. lia.
Qed.

Lemma buffered_send {A} (c : chan A) x :
  (nrecv c ≤ length (sent c))%nat →
  buffered (mkChan (sent c ++ [x]) (nrecv c) (cap c)) = buffered c ++ [x].
Proof. intros H. unfold buffered; simpl. by rewrite drop_app_le. Qed.

Lemma buffered_recv {A} (c : chan A) x q :
  buffered c = x :: q →
  buffered (mkChan (sent c) (S (nrecv c)) (cap c)) = q.
Proof.
  unfold buffered; simpl. intros H.
  assert (Hl : sent c !! nrecv c = Some x).
  { pose proof (lookup_drop (sent c) (nrecv c) 0) as E.
    rewrite H in E. simpl in E. by rewrite Nat.add_0_r in E. }
  apply drop_S in Hl. rewrite Hl in H. by simplify_eq.
Qed.

Lemma elem_of_take_full {A} (x : A) n (l : list A) : x ∈ take n l → x ∈ l.
Proof.
  intros H. rewrite <- (take_drop n l). apply elem_of_app. by left.
Qed.

(** After a receive: the buffer that is left, and what was at its head. *)
Ltac use_recv :=
  try match goal with
    | H : buffered _ = _ :: _ |- _ =>
        try rewrite (buffered_recv _ _ _ H); try rewrite H in *
    end;
  simpl in *.

Ltac fin :=
  intros;
  repeat match goal with
    | H : ?a = ?a → _ |- _ => specialize (H eq_refl)
    | H : buffered _ = _ :: _ |- _ => apply take_S_buffered in H as [? ?]
    | H : _ ∈ _ ++ [_] |- _ =>
        apply elem_of_app in H as [?|?%list_elem_of_singleton]
    | H : sent _ = [] |- _ => rewrite H
    end;
  rewrite ?length_app, ?take_app_le by lia; simpl;
  repeat match goal with H : take (S _) _ = _ |- _ => rewrite H; clear H end;
  rewrite ?elem_of_app, ?list_elem_of_singleton;
  try first
    [ done | lia | congruence | tauto | by auto
    | split; [intros [?|?]; [tauto | discriminate] | tauto] ].

(** ** Runs *)

Lemma exec_app tr1 tr2 s :
  exec s (tr1 ++ tr2) = exec s tr1 ≫= λ s1, exec s1 tr2.
Proof.
  revert s. induction tr1 as [|ev tr1 IH]; intros s; simpl; [done|].
  destruct (step s ev); simpl; [apply IH | done].
Qed.

Lemma exec_snoc tr ev s s' :
  exec s (tr ++ [ev]) = Some s' ↔
  ∃ s1, exec s tr = Some s1 ∧ step s1 ev = Some s'.
Proof.
  rewrite exec_app. split.
  - destruct (exec s tr) as [s1|]; simpl; [|done].
    destruct (step s1 ev) eqn:E; [|done]. intros; simplify_eq. eauto.
  - intros (s1 & -> & E). simpl. by rewrite E.
Qed.

(** A prefix of a run is a run, and obeys the pairing when the run does. *)
Lemma paired_app tr1 tr2 s s1 :
  exec s tr1 = Some s1 → paired s (tr1 ++ tr2) → paired s tr1 ∧ paired s1 tr2.
Proof.
  revert s. induction tr1 as [|ev tr1 IH]; intros s H HP; simpl in *.
  - by simplify_eq.
  - destruct (step s ev) as [s2|] eqn:E; [|done].
    destruct HP as [? HP]. destruct (IH _ H HP). done.
Qed.

Lemma last_shutdown_cons ev tr :
  last_shutdown (ev :: tr) = None ↔
  last_shutdown [ev] = None ∧ last_shutdown tr = None.
Proof.
  destruct ev; simpl; destruct (last_shutdown tr); split; intros; try tauto;
    try done; by destruct_and?.
Qed.

(** ** The invariant of the reachable states *)

Lemma Inv_init w now : Inv (init w now).
Proof.
  split; simpl; try done.
  - by intros ?%elem_of_nil.
  - split; [by intros ?%elem_of_nil | done].
Qed.

Lemma Inv_step s ev s' : Inv s → step s ev = Some s' → Inv s'.
Proof.
  intros [] H. step_inv H.
  all: split; cbn in *; try done; try lia.
  all: fin.
Qed.

Lemma Inv_exec tr s s' : Inv s → exec s tr = Some s' → Inv s'.
Proof.
  revert s. induction tr as [|ev tr IH]; intros s HI H; simpl in H.
  - by simplify_eq.
  - destruct (step s ev) as [s1|] eqn:E; [|done].
    eauto using Inv_step.
Qed.

Lemma Inv_reachable w now tr s : exec (init w now) tr = Some s → Inv s.
Proof. apply Inv_exec, Inv_init. Qed.

(** Once set, [shuttingDown] stays set. *)
Lemma shuttingDown_step s ev s' :
  step s ev = Some s' → shuttingDown (rt s) ≠ 0 → shuttingDown (rt s') ≠ 0.
Proof. intros H. step_inv H; cbn; done. Qed.

Lemma shuttingDown_exec tr s s' :
  exec s tr = Some s' → shuttingDown (rt s) ≠ 0 → shuttingDown (rt s') ≠ 0.
Proof.
  revert s. induction tr as [|ev tr IH]; intros s H; simpl in H.
  - by simplify_eq.
  - destruct (step s ev) as [s1|] eqn:E; [|done].
    eauto using shuttingDown_step.
Qed.

(** The stored reason is the one of the most recent [shutdown] call. *)
Lemma shutdownReason_step s ev s' :
  step s ev = Some s' →
  shutdownReason (rt s') =
    match ev with
    | CallShutdown r => Some (PtrTo r)
    | _ => shutdownReason (rt s)
    end.
Proof. intros H. step_inv H; cbn; done. Qed.

Lemma shutdownReason_exec tr s s' :
  exec s tr = Some s' →
  shutdownReason (rt s') =
    match last_shutdown tr with
    | Some r => Some (PtrTo r)
    | None => shutdownReason (rt s)
    end.
Proof.
  revert s. induction tr as [|ev tr IH]; intros s H; simpl in H.
  - by simplify_eq.
  - destruct (step s ev) as [s1|] eqn:E; [|done].
    rewrite (IH _ H). apply shutdownReason_step in E.
    destruct ev; simpl; destruct (last_shutdown tr); congruence.
Qed.

(** ** The count of active requests *)

Lemma wrap64_id z : - MaxInt64 ≤ z ≤ MaxInt64 → wrap64 z = z.
Proof.
  unfold wrap64, MaxInt64. intros H.
  rewrite Z.mod_small; lia.
Qed.

Lemma safeq_start a o q :
  safeq a o q → safeq a (o + 1) (q ++ [Cmd.startRequest]).
Proof.
  revert a. induction q as [|[] q IH]; intros a; simpl; [lia|auto| |done].
  intros [? ?]; auto.
Qed.

Lemma safeq_end a o q :
  0 < o → safeq a o q → safeq a (o - 1) (q ++ [Cmd.endRequest]).
Proof.
  intros Ho. revert a. induction q as [|[] q IH]; intros a; simpl; [lia|auto| |done].
  intros [? ?]; auto.
Qed.

Lemma safeq_shutdown a o q : safeq a o q → safeq a o (q ++ [Cmd.shutdown]).
Proof.
  revert a. induction q as [|[] q IH]; intros a; simpl; [done|auto| |done].
  intros [? ?]; auto.
Qed.

Lemma Safe_init w now : Safe 0 (init w now).
Proof. split; simpl; done. Qed.

Lemma Safe_step n s ev s' :
  Inv s → Safe n s → n < MaxInt64 →
  (ev = CallEnd → 0 < inflight (history s)) →
  step s ev = Some s' → Safe (n + 1) s'.
Proof.
  intros [] [] Hn Hend H. step_inv H.
  all: split; cbn in *; try lia; try done.
  all: rewrite ?buffered_send by done.
  all: use_recv.
  all: intros; destruct (stopping (vars s)) eqn:Hst; simplify_eq/=; use_eqs.
  all: rewrite ?wrap64_id in * by lia.
  all: try first [ done | lia | tauto
                 | by auto using safeq_start, safeq_end, safeq_shutdown ].
Qed.

Lemma Safe_exec tr n s s' :
  Inv s → Safe n s → paired s tr → n + Z.of_nat (length tr) ≤ MaxInt64 →
  exec s tr = Some s' → Safe (n + Z.of_nat (length tr)) s'.
Proof.
  revert n s. induction tr as [|ev tr IH]; intros n s HI HS HP Hn H; simpl in *.
  - simplify_eq. by rewrite Z.add_0_r.
  - destruct (step s ev) as [s1|] eqn:E; [|done].
    destruct HP as [Hend HP].
    replace (n + Z.of_nat (S (length tr))) with (n + 1 + Z.of_nat (length tr)) by lia.
    apply (IH (n + 1) s1); [by apply (Inv_step s ev)| |done|lia|done].
    apply (Safe_step n s ev); [done|done|lia|done|done].
Qed.

(** ** Runs without a shutdown call *)

Lemma balance_snoc q c : balance (q ++ [c]) = balance q + delta c.
Proof. induction q as [|c' q IH]; simpl; lia. Qed.

Lemma Quiet_init w now : Quiet 0 (init w now).
Proof. split; simpl; try done. by intros ?%elem_of_nil. Qed.

Lemma Quiet_step n s ev s' :
  Quiet n s → n < MaxInt64 → last_shutdown [ev] = None →
  step s ev = Some s' → Quiet (n + 1) s'.
Proof.
  intros [] Hn Hev H. step_inv H.
  all: split; cbn in *; try lia; try done.
  all: rewrite ?buffered_send by done.
  all: use_recv.
  all: rewrite ?wrap64_id in * by lia.
  all: rewrite ?balance_snoc; simpl.
  all: rewrite ?not_elem_of_app, ?not_elem_of_cons in *.
  all: rewrite ?length_app; simpl.
  all: try first [ done | lia | tauto | congruence
                 | by constructor; [left|] | by constructor; [right|]
                 | by repeat split; auto using not_elem_of_nil ].
  all: match goal with
       | H : buffered _ = _ :: _ |- _ => apply take_S_buffered in H as [_ ?]
       end; lia.
Qed.

Lemma Quiet_exec tr n s s' :
  Quiet n s → last_shutdown tr = None → n + Z.of_nat (length tr) ≤ MaxInt64 →
  exec s tr = Some s' → Quiet (n + Z.of_nat (length tr)) s'.
Proof.
  revert n s. induction tr as [|ev tr IH]; intros n s HQ HN Hn H.
  - simpl in *. simplify_eq. by rewrite Z.add_0_r.
  - apply last_shutdown_cons in HN as [Hev HN]. cbn [exec length] in *.
    destruct (step s ev) as [s1|] eqn:E; [|done].
    replace (n + Z.of_nat (S (length tr))) with (n + 1 + Z.of_nat (length tr)) by lia.
    apply (IH (n + 1) s1); [|done|lia|done].
    apply (Quiet_step n s ev); [done|lia|done|done].
Qed.

(** ** Completion *)

Lemma sent_commands_step s ev s' :
  step s ev = Some s' →
  ∃ l, sent (commandChan (rt s')) = sent (commandChan (rt s)) ++ l
       ∧ ∀ r, ev = CallShutdown r → l = [Cmd.shutdown].
Proof.
  intros H. step_inv H; cbn.
  all: try (exists []; rewrite app_nil_r; split; [done|intros; discriminate]).
  all: eexists; split; [done|intros; done].
Qed.

(** After a [shutdown] call, a shutdown command has been sent. *)
Lemma shutdown_sent tr s s' :
  exec s tr = Some s' →
  (Cmd.shutdown ∈ sent (commandChan (rt s)) ∨ is_Some (last_shutdown tr)) →
  Cmd.shutdown ∈ sent (commandChan (rt s')).
Proof.
  revert s. induction tr as [|ev tr IH]; intros s H Hs; simpl in H.
  - simplify_eq. destruct Hs as [?|[? ?]]; done.
  - destruct (step s ev) as [s1|] eqn:E; [|done].
    apply (IH s1 H).
    destruct (sent_commands_step _ _ _ E) as (l & Hl & Hev).
    rewrite Hl, elem_of_app.
    destruct Hs as [?|Hs]; [by left; left|].
    destruct ev; simpl in Hs; try (by right).
    left; right. rewrite (Hev reason eq_refl). by apply list_elem_of_singleton.
Qed.

(** While trackerLoop runs and a command waits, the loop takes it. *)
Lemma loop_command_progress s c q :
  Inv s → crashed s = false → sentStop (vars s) = false →
  buffered (commandChan (rt s)) = c :: q →
  ∃ s', step s LoopCommand = Some s' ∧ Inv s' ∧ crashed s' = false
        ∧ buffered (commandChan (rt s')) = q
        ∧ sent (commandChan (rt s')) = sent (commandChan (rt s)).
Proof.
  intros HI Hc Hs Hq.
  destruct (step s LoopCommand) as [s'|] eqn:E.
  - exists s'. split; [done|]. split; [by eapply Inv_step|].
    destruct HI. step_inv E; cbn; use_recv; try done.
    all: exfalso; use_eqs.
    all: match goal with
         | H : buffered _ = _ :: _ |- _ =>
             apply take_S_buffered in H as [Hq _]
         end.
    + apply inv_sent_reason0; [|done].
      apply (elem_of_take_full _ (nrecv (commandChan (rt s)))), inv_processed0.
      done.
    + apply inv_sent_reason0; [|done].
      apply (elem_of_take_full _ (S (nrecv (commandChan (rt s))))).
      rewrite Hq, elem_of_app, list_elem_of_singleton. by right.
  - exfalso. destruct HI. step_inv E; use_eqs.
    all: match goal with
         | H : ¬ (length (buffered (C _)) < cap (C _))%nat |- _ =>
             apply H; unfold buffered;
             rewrite inv_cap_C0, inv_C_alive0, drop_nil; simpl; lia
         end.
Qed.

Lemma dead_loop s sel : sentStop (vars s) = true → loop_step sel s = None.
Proof. intros H. unfold loop_step. by rewrite H. Qed.

Lemma try_step_dead s :
  sentStop (vars s) = true → try_step s LoopCommand = s.
Proof.
  intros H. unfold try_step, step.
  destruct (crashed s); [done|]. by rewrite dead_loop.
Qed.

Lemma drain_dead n s : sentStop (vars s) = true → drain n s = s.
Proof.
  intros H. induction n as [|n IH]; simpl; [done|].
  by rewrite try_step_dead.
Qed.

Lemma drain_spec n s :
  Inv s → crashed s = false →
  length (buffered (commandChan (rt s))) = n →
  Inv (drain n s) ∧ crashed (drain n s) = false
  ∧ sent (commandChan (rt (drain n s))) = sent (commandChan (rt s))
  ∧ (sentStop (vars (drain n s)) = true
     ∨ buffered (commandChan (rt (drain n s))) = []).
Proof.
  revert s. induction n as [|n IH]; intros s HI Hc Hn; simpl.
  - apply nil_length_inv in Hn. auto.
  - destruct (sentStop (vars s)) eqn:Hs.
    { rewrite try_step_dead, drain_dead by done. auto. }
    destruct (buffered (commandChan (rt s))) as [|c q] eqn:Hq; [done|].
    destruct (loop_command_progress s c q HI Hc Hs Hq)
      as (s' & E & HI' & Hc' & Hq' & Hsent).
    unfold try_step. rewrite E. simpl.
    assert (Hn' : length (buffered (commandChan (rt s'))) = n).
    { rewrite Hq'. simpl in Hn. lia. }
    destruct (IH s' HI' Hc' Hn') as (? & ? & ? & ?).
    split; [done|]. split; [done|]. split; [congruence|done].
Qed.

(** Once a shutdown command has been sent, letting the tracker settle
    delivers the completion. *)
Lemma settle_stops s :
  Inv s → crashed s = false →
  Cmd.shutdown ∈ sent (commandChan (rt s)) →
  length (sent (C (rt (settle s)))) = 1%nat.
Proof.
  intros HI Hc Hsd. unfold settle.
  destruct (drain_spec _ s HI Hc eq_refl) as (HI1 & Hc1 & Hsent & Hq).
  set (s1 := drain _ s) in *. clearbody s1.
  rewrite <- Hsent in Hsd. clear Hsent HI Hc s.
  assert (Ht : 0 ≤ time_left s1).
  { unfold time_left. destruct (graceTimer (vars s1)); lia. }
  assert (E1 : try_step s1 (Tick (time_left s1)) =
               mkSystem (rt s1) (vars s1) (clock s1 + time_left s1) false
                        (history s1)).
  { unfold try_step, step. rewrite Hc1. by rewrite decide_True. }
  rewrite E1. clear E1.
  destruct (sentStop (vars s1)) eqn:Hs.
  { unfold try_step, step; simpl. rewrite dead_loop by done. simpl.
    by apply inv_C_dead. }
  destruct Hq as [?|Hq]; [done|].
  assert (Hstop : stopping (vars s1) = true).
  { apply (inv_processed _ HI1). rewrite take_ge; [done|].
    by apply drop_nil_inv. }
  destruct (inv_timer _ HI1 Hs) as [d Hd].
  assert (Hnow : d ≤ clock s1 + time_left s1).
  { unfold time_left. rewrite Hd. lia. }
  pose proof (inv_sent_reason _ HI1 Hsd) as Hr.
  pose proof (inv_reason _ HI1) as Hr'.
  pose proof (inv_C_alive _ HI1 Hs) as HC.
  pose proof (inv_cap_C _ HI1) as Hcap.
  unfold try_step, step, loop_step; simpl. rewrite Hs. unfold_ops.
  rewrite Hd, decide_True by done. simpl.
  destruct (shutdownReason (rt s1)) as [[|e]|]; [done| |done].
  unfold buffered. rewrite HC, drop_nil, Hcap. simpl. done.
Qed.




(** ** The stop sequence *)

(** A step sends nothing on [C], or it is the step of trackerLoop that
    stops: it sends the reason stored at that moment. *)
Lemma stop_step s ev s' :
  Inv s → step s ev = Some s' →
  (sent (C (rt s')) = sent (C (rt s)) ∧ sentStop (vars s') = sentStop (vars s))
  ∨ (sentStop (vars s) = false ∧ sentStop (vars s') = true
     ∧ ∃ e, shutdownReason (rt s) = Some (PtrTo e) ∧ sent (C (rt s')) = [e]).
Proof.
  intros [] H. step_inv H; cbn; auto.
  all: right; use_eqs; rewrite inv_C_alive0; eauto.
Qed.

Lemma shutdownWait_step s ev s' :
  step s ev = Some s' → shutdownWait (rt s') = shutdownWait (rt s).
Proof. intros H. step_inv H; cbn; done. Qed.

Lemma shutdownWait_exec tr s s' :
  exec s tr = Some s' → shutdownWait (rt s') = shutdownWait (rt s).
Proof.
  revert s. induction tr as [|ev tr IH]; intros s H; simpl in H.
  - by simplify_eq.
  - destruct (step s ev) as [s1|] eqn:E; [|done].
    rewrite (IH _ H). by eapply shutdownWait_step.
Qed.

(** Until a shutdown command is taken, the timer is the one trackerLoop
    created. *)
Lemma first_timer_step d s ev s' :
  Inv s → step s ev = Some s' →
  (stopping (vars s) = false → sentStop (vars s) = false →
   graceTimer (vars s) = Some d) →
  stopping (vars s') = false → sentStop (vars s') = false →
  graceTimer (vars s') = Some d.
Proof.
  intros [] H. step_inv H; cbn; auto.
  all: intros; use_eqs; try done.
Qed.

Lemma first_timer_exec d tr s s' :
  Inv s → exec s tr = Some s' →
  (stopping (vars s) = false → sentStop (vars s) = false →
   graceTimer (vars s) = Some d) →
  stopping (vars s') = false → sentStop (vars s') = false →
  graceTimer (vars s') = Some d.
Proof.
  revert s. induction tr as [|ev tr IH]; intros s HI H; simpl in H.
  - by simplify_eq.
  - destruct (step s ev) as [s1|] eqn:E; [|done]. intros Hd.
    apply (IH s1); [by eapply Inv_step|done|].
    by eapply first_timer_step.
Qed.



Lemma Inv_stopping_reason s :
  Inv s → stopping (vars s) = true → shutdownReason (rt s) ≠ None.
Proof.
  intros HI Hs. apply (inv_sent_reason _ HI).
  apply (elem_of_take_full _ (nrecv (commandChan (rt s)))).
  by apply (inv_processed _ HI).
Qed.

Lemma Inv_head_reason s q :
  Inv s → buffered (commandChan (rt s)) = Cmd.shutdown :: q →
  shutdownReason (rt s) ≠ None.
Proof.
  intros HI Hq. apply (inv_sent_reason _ HI).
  apply take_S_buffered in Hq as [Hq _].
  apply (elem_of_take_full _ (S (nrecv (commandChan (rt s))))).
  rewrite Hq, elem_of_app, list_elem_of_singleton. by right.
Qed.



Lemma phase_of_Active l :
  phase_of l = Active ↔ sentStop l = false ∧ stopping l = false.
Proof.
  unfold phase_of. destruct (sentStop l), (stopping l); split; try done;
    by intros [? ?].
Qed.

Lemma phase_of_Draining l :
  phase_of l = Draining ↔ sentStop l = false ∧ stopping l = true.
Proof.
  unfold phase_of. destruct (sentStop l), (stopping l); split; try done;
    by intros [? ?].
Qed.




(** When the grace timer has expired, trackerLoop's timer case is ready, and
    taking it sends the value. *)
Lemma timer_fires s d :
  Inv s → stopping (vars s) = true → sentStop (vars s) = false →
  graceTimer (vars s) = Some d → d ≤ clock s →
  ∃ s', step s LoopTimer = Some s' ∧ length (sent (C (rt s'))) = 1%nat.
Proof.
  intros HI Hst Hss Ht Hd.
  pose proof (Inv_stopping_reason s HI Hst) as Hr.
  assert (Hc : crashed s = false).
  { destruct (crashed s) eqn:Hc; [|done].
    by destruct (inv_crashed _ HI Hc). }
  pose proof (inv_reason _ HI) as Hnil.
  pose proof (inv_C_alive _ HI Hss) as HC.
  pose proof (inv_cap_C _ HI) as Hcap.
  destruct (shutdownReason (rt s)) as [[|e]|] eqn:Hsr; try done.
  eexists. split.
  - unfold step, loop_step. rewrite Hc, Hss. unfold_ops.
    rewrite Ht, decide_True by done. rewrite Hss. simpl. rewrite Hsr.
    rewrite decide_True; [reflexivity|].
    unfold buffered. rewrite HC, Hcap, drop_nil. simpl. lia.
  - simpl. by rewrite HC.
Qed.



(** While no shutdown command arrives, the grace timer keeps its expiry
    until trackerLoop stops. *)
Lemma deadline_step d s ev s' :
  Inv s → step s ev = Some s' → (∀ r, ev ≠ CallShutdown r) →
  stopping (vars s) = true →
  Cmd.shutdown ∉ buffered (commandChan (rt s)) →
  sentStop (vars s) = true ∨ graceTimer (vars s) = Some d →
  stopping (vars s') = true
  ∧ (Cmd.shutdown ∉ buffered (commandChan (rt s')))
  ∧ (sentStop (vars s') = true ∨ graceTimer (vars s') = Some d).
Proof.
  intros HI H Hev Hst Hq Ht. pose proof (inv_flag _ HI) as Hf.
  rewrite Hst in Hf.
  pose proof (Inv_stopping_reason s HI Hst) as Hr.
  pose proof (inv_reason _ HI) as Hnil.
  step_inv H; cbn in *; use_eqs.
  all: try (by destruct (Hev reason)).
  all: try congruence.
  all: try lia.
  all: try (split; [done|]; split; [done|]; by eauto).
  all: split; [done|].
  all: try (exfalso; apply Hq; apply elem_of_cons; by left).
  all: split; [|destruct Ht as [Ht|Ht]; [left; congruence|by right]].
  1: { rewrite buffered_send by apply (inv_nrecv_cmd _ HI).
       rewrite elem_of_app, list_elem_of_singleton. by intros [?|?]. }
  all: match goal with
       | H : buffered _ = _ :: _ |- _ => rewrite (buffered_recv _ _ _ H)
       end.
  all: intros ?; apply Hq; apply elem_of_cons; by right.
Qed.

Lemma deadline_exec d tr s s' :
  Inv s → exec s tr = Some s' → (∀ r, CallShutdown r ∉ tr) →
  stopping (vars s) = true →
  Cmd.shutdown ∉ buffered (commandChan (rt s)) →
  sentStop (vars s) = true ∨ graceTimer (vars s) = Some d →
  stopping (vars s') = true
  ∧ (sentStop (vars s') = true ∨ graceTimer (vars s') = Some d).
Proof.
  revert s. induction tr as [|ev tr IH]; intros s HI H Hn Hst Hq Ht;
    simpl in H.
  - by simplify_eq.
  - destruct (step s ev) as [s1|] eqn:E; [|done].
    destruct (deadline_step d s ev s1 HI E) as (? & ? & ?); try done.
    { intros r ->. apply (Hn r). by left. }
    apply (IH s1); try done; [by eapply Inv_step|].
    intros r Hr. apply (Hn r). by right.
Qed.

Lemma when_within now d : when now d ≤ now + Z.max 0 d.
Proof.
  unfold when. destruct (Z.leb_spec d 0); [lia|].
  destruct (Z.ltb_spec MaxInt64 (now + d)); lia.
Qed.

Lemma timer_within_step s ev s' :
  Inv s → step s ev = Some s' →
  timer_within (shutdownWait (rt s)) s →
  timer_within (shutdownWait (rt s)) s'.
Proof.
  intros [] H Ht. unfold timer_within in *.
  pose proof (when_within (clock s) (shutdownWait (rt s))).
  step_inv H; cbn in *; intros; use_eqs; try done; eauto.
  all: try (destruct Ht as (d' & ? & ?); [done..|]; exists d'; split; [done|lia]).
Qed.

Lemma timer_within_reachable w now tr s :
  exec (init w now) tr = Some s → timer_within w s.
Proof.
  revert s. induction tr as [|ev tr IH] using rev_ind; intros s H.
  - simpl in H. simplify_eq. by intros ?.
  - apply exec_snoc in H as (s1 & H1 & E).
    pose proof (shutdownWait_exec _ _ _ H1) as Hw. simpl in Hw.
    rewrite <- Hw. apply (timer_within_step s1 ev).
    + by eapply Inv_reachable.
    + done.
    + rewrite Hw. by apply IH.
Qed.

(** Once [shuttingDown] is set, [start] returns the stored reason and sends
    no command. *)
Lemma start_fast t r :
  shuttingDown t ≠ 0 → shutdownReason t = Some (PtrTo r) →
  start t = Done (r, t).
Proof.
  intros Hf Hr. unfold_ops. rewrite decide_True by done. by rewrite Hr.
Qed.

(** ** The guarded handler *)

Lemma start_rejected_unchanged t message t' :
  start t = Done (Some message, t') → t' = t.
Proof.
  intros H. unfold_ops.
  destruct (decide (shuttingDown t ≠ 0)).
  - destruct (shutdownReason t) as [[|e]|]; by simplify_eq/=.
  - destruct (decide _); by simplify_eq/=.
Qed.

Lemma ServeHTTP_rejected {Request D} (env : Env Request)
    (h : Handler Request D) req (c : conn D) message :
  start (tracker_of c) = Done (Some message, tracker_of c) →
  ServeHTTP env h req c =
    let mt := SelectMediaType env req ["text/plain"; "application/json"] in
    let payload :=
      if decide (mt = "application/json")
      then json_Marshal env
             (<["error" := "Stopping"]> (<["message" := message]> ∅))
      else message in
    Done (tt, mkConn (tracker_of c)
                (Write payload
                   (WriteHeader StatusServiceUnavailable
                      (Header_Set "Content-Type" mt (resp c))))
                (downstream c)).
Proof.
  intros Hs. unfold ServeHTTP, on_tracker, on_resp, modify, mbind, M_bind.
  rewrite Hs. simpl. by case_decide.
Qed.

Lemma ServeHTTP_returns {Request D} (env : Env Request)
    (h : Handler Request D) req (c : conn D) t1 t2 w d :
  start (tracker_of c) = Done (None, t1) →
  handler_ServeHTTP req (resp c, downstream c) = Done (tt, (w, d)) →
  end_ t1 = Done (tt, t2) →
  ServeHTTP env h req c = Done (tt, mkConn t2 w d).
Proof.
  intros Hs Hh He.
  unfold ServeHTTP, on_tracker, on_downstream, mbind, M_bind.
  rewrite Hs. simpl. rewrite Hh. simpl. by rewrite He.
Qed.

Lemma ServeHTTP_panics {Request D} (env : Env Request)
    (h : Handler Request D) req (c : conn D) t1 w d :
  start (tracker_of c) = Done (None, t1) →
  handler_ServeHTTP req (resp c, downstream c) = Panics (w, d) →
  ServeHTTP env h req c = Panics (mkConn t1 w d).
Proof.
  intros Hs Hh.
  unfold ServeHTTP, on_tracker, on_downstream, mbind, M_bind.
  rewrite Hs. simpl. by rewrite Hh.
Qed.

(** ** Listen *)

Lemma last_shutdown_elem tr r : last_shutdown tr = Some r → CallShutdown r ∈ tr.
Proof.
  induction tr as [|ev tr IH]; simpl; [done|]. intros H.
  destruct ev; try (apply elem_of_cons; right; by apply IH).
  destruct (last_shutdown tr) as [r'|] eqn:E.
  - apply elem_of_cons; right. apply IH. congruence.
  - simplify_eq. apply elem_of_cons. by left.
Qed.

(** Whatever was sent on [C] is the reason of a [shutdown] call. *)
Lemma sent_C_reason w now tr s e :
  exec (init w now) tr = Some s → e ∈ sent (C (rt s)) → CallShutdown e ∈ tr.
Proof.
  revert s. induction tr as [|ev tr IH] using rev_ind; intros s H He.
  - simpl in H. simplify_eq. simpl in He. by apply elem_of_nil in He.
  - apply exec_snoc in H as (s1 & H1 & E).
    apply elem_of_app.
    destruct (stop_step _ _ _ (Inv_reachable _ _ _ _ H1) E)
      as [[Heq _]|(_ & _ & e0 & Hr & HC)].
    + left. apply (IH s1 H1). by rewrite <- Heq.
    + left. rewrite HC in He. apply list_elem_of_singleton in He as ->.
      apply last_shutdown_elem.
      rewrite (shutdownReason_exec _ _ _ H1) in Hr. simpl in Hr.
      destruct (last_shutdown tr); by simplify_eq.
Qed.

(** While nobody but [Listen] receives from [C], nothing has been received. *)
Lemma no_receive_step s ev s' :
  step s ev = Some s' → ev ≠ ReceiveC → nrecv (C (rt s')) = nrecv (C (rt s)).
Proof. intros H. step_inv H; cbn; done. Qed.

Lemma no_receive_exec tr s s' :
  exec s tr = Some s' → ReceiveC ∉ tr → nrecv (C (rt s')) = nrecv (C (rt s)).
Proof.
  revert s. induction tr as [|ev tr IH]; intros s H Hn; simpl in H.
  - by simplify_eq.
  - destruct (step s ev) as [s1|] eqn:E; [|done].
    apply not_elem_of_cons in Hn as [? ?].
    rewrite (IH _ H) by done. by eapply no_receive_step.
Qed.

(** When the port cannot be bound, [Listen] returns the error of
    [net.ListenTCP] at once and the scaffold stays closed. *)
Lemma Listen_bind_failure ListenTCP now s e :
  open s = false → ListenTCP (insecurePort s) = inr e →
  ∃ s', Listen ListenTCP now s = Done (Some e, s') ∧ open s' = false.
Proof.
  intros Ho Hb. eexists.
  unfold Listen, Listen_begin, Open, gets, modify, mbind, mret, M_bind, M_ret.
  rewrite Ho. simpl. rewrite Hb. simpl. split; [reflexivity|done].
Qed.

(** [Shutdown] is a [shutdown] call on the scaffold's tracker. *)
Lemma Shutdown_is_CallShutdown reason s sys sys' :
  tracker s = Some sys → step sys (CallShutdown reason) = Some sys' →
  Shutdown reason s
  = Done (tt, mkScaffold (insecurePort s) (open s) (Some sys')
                         (insecureListener s)).
Proof. intros Ht E. unfold Shutdown. by rewrite Ht, E. Qed.

Lemma inflight_counts h :
  inflight h = Z.of_nat (admissions h) - Z.of_nat (releases h).
Proof.
  induction h as [|o h IH]; simpl; [done|].
  destruct o as [[?|]| | | |]; simpl; lia.
Qed.

(** What the steps of the other goroutines leave of the scaffold. *)
Lemma tracker_run_spec tr s sys :
  tracker s = Some sys →
  tracker_run tr s
  = match exec sys tr with
    | Some sys' => Done (tt, with_tracker sys' s)
    | None => Blocks
    end.
Proof.
  revert s sys. induction tr as [|ev tr IH]; intros s sys Ht; simpl.
  - unfold mret, M_ret, with_tracker. rewrite <- Ht. by destruct s.
  - unfold mbind, M_bind, tracker_step. rewrite Ht.
    destruct (step sys ev) as [sys1|]; [|done].
    by rewrite (IH _ sys1).
Qed.

Lemma Listen_while_nothing ListenTCP now s :
  Listen ListenTCP now s = Listen_while (mret tt) ListenTCP now s.
Proof.
  unfold Listen, Listen_while, mbind, M_bind.
  destruct (Listen_begin ListenTCP now s) as [[[e|] s1]| |]; done.
Qed.

(** On an open scaffold [Listen] goes straight to the receive. *)
Lemma Listen_open ListenTCP now s :
  open s = true → Listen ListenTCP now s = Listen_end s.
Proof.
  intros Ho. unfold Listen, Listen_begin, gets, mbind, mret, M_bind, M_ret.
  by rewrite Ho.
Qed.

(** [Listen], from the receive on, while nothing has been sent on [C]. *)
Lemma Listen_end_blocks s sys :
  tracker s = Some sys → buffered (C (rt sys)) = [] → Listen_end s = Blocks.
Proof.
  intros Ht Hb.
  unfold Listen_end, await_C, recv_C, chan_recv, mbind, M_bind.
  by rewrite Ht, Hb.
Qed.

(** [Listen], from the receive on: what it does when a value waits on [C]. *)
Lemma Listen_end_receives s sys il e l :
  tracker s = Some sys → insecureListener s = Some il →
  nrecv (C (rt sys)) = 0%nat → sent (C (rt sys)) = e :: l →
  ∃ s', Listen_end s = Done (e, s') ∧ insecureListener s' = Some (Close il)
        ∧ open s' = open s.
Proof.
  intros Ht Hl Hn Hs. eexists.
  unfold Listen_end, await_C, close_listener, recv_C, chan_recv, mbind, mret,
    M_bind, M_ret, buffered.
  rewrite Ht, Hn, drop_0, Hs. simpl. rewrite Hl. done.
Qed.

(** What [Listen] finds on [C] in a reachable state of the tracker. *)
Lemma Listen_end_reachable w now tr sys s il :
  exec (init w now) tr = Some sys → ReceiveC ∉ tr →
  tracker s = Some sys → insecureListener s = Some il →
  match Listen_end s with
  | Blocks => sent (C (rt sys)) = []
  | Done (err, s') =>
      sent (C (rt sys)) = [err]
      ∧ CallShutdown err ∈ tr
      ∧ open s' = open s
      ∧ insecureListener s' = Some (Close il)
  | Panics _ => False
  end.
Proof.
  intros H Hn Ht Hl.
  pose proof (Inv_reachable _ _ _ _ H) as HI.
  pose proof (no_receive_exec _ _ _ H Hn) as Hr. simpl in Hr.
  destruct (sent (C (rt sys))) as [|e l] eqn:HC.
  - rewrite (Listen_end_blocks s sys); [done..|].
    unfold buffered. by rewrite HC, drop_nil.
  - destruct (Listen_end_receives s sys il e l Ht Hl Hr HC) as (s' & -> & ? & ?).
    assert (l = []) as ->.
    { destruct (sentStop (vars sys)) eqn:Hs.
      - pose proof (inv_C_dead _ HI Hs) as Hlen. rewrite HC in Hlen.
        destruct l; [done|simpl in Hlen; lia].
      - pose proof (inv_C_alive _ HI Hs). congruence. }
    split; [done|]. split; [|done].
    apply (sent_C_reason _ _ _ _ _ H). rewrite HC.
    by apply list_elem_of_singleton.
Qed.

Lemma run_then_Listen ListenTCP now tr s sys :
  tracker s = Some sys → open s = true →
  (tracker_run tr;; Listen ListenTCP now) s
  = match exec sys tr with
    | Some sys' => Listen_end (with_tracker sys' s)
    | None => Blocks
    end.
Proof.
  intros Ht Ho. unfold mbind, M_bind. rewrite (tracker_run_spec tr s sys Ht).
  destruct (exec sys tr) as [sys'|]; [|done].
  by apply Listen_open.
Qed.

Lemma no_shutdown_in_app tr tr' e :
  CallShutdown e ∈ tr ++ tr' → (∀ r, CallShutdown r ∉ tr') →
  CallShutdown e ∈ tr.
Proof. intros [?|?]%elem_of_app Hn; [done|]. by destruct (Hn e). Qed.

Lemma is_Some_last_shutdown_snoc tr r :
  is_Some (last_shutdown (tr ++ [CallShutdown r])).
Proof.
  induction tr as [|ev tr IH]; simpl; [by eexists|].
  destruct ev; try done. destruct IH as [r' ->]. by eexists.
Qed.

(** * The claims *)




(** C6: in every run in which each [end] call is made for a request whose
    [start] call returned nil and that has not ended yet, with or without
    shutdown calls in between, [activeRequests] is never negative: it is at
    least zero after every prefix of the run. The run has at most
    [MaxInt64] steps, so that the 64-bit count cannot wrap around. *)
Theorem activeRequests_never_negative w now tr1 tr2 s :
  exec (init w now) (tr1 ++ tr2) = Some s →
  paired (init w now) (tr1 ++ tr2) →
  Z.of_nat (length (tr1 ++ tr2)) ≤ MaxInt64 →
  ∃ s1, exec (init w now) tr1 = Some s1 ∧ 0 ≤ activeRequests (vars s1).
Proof.
  intros H HP Hn. rewrite exec_app in H.
  destruct (exec (init w now) tr1) as [s1|] eqn:E; [|done].
  exists s1. split; [done|].
  destruct (paired_app _ _ _ _ E HP) as [HP1 _].
  rewrite length_app in Hn.
  eapply safe_nonneg, (Safe_exec tr1 0 (init w now));
    [apply Inv_init|apply Safe_init|done|lia|done].
Qed.

Lemma activeRequests_never_negative_witness :
  ∃ s1, exec (init 30 0) [CallStart; LoopCommand; CallShutdown (Some "Stop");
                          LoopCommand; CallStart; CallEnd] = Some s1
        ∧ 0 ≤ activeRequests (vars s1).
Proof.
  destruct (exec (init 30 0)
              ([CallStart; LoopCommand; CallShutdown (Some "Stop"); LoopCommand;
                CallStart; CallEnd] ++ [LoopCommand]))
    as [s|] eqn:E; [|vm_compute in E; discriminate].
  apply (activeRequests_never_negative 30 0 _ [LoopCommand] s E).
  - vm_compute. repeat split; intros; try discriminate.
  - vm_compute. discriminate.
Defined.

(** C7: in a run without a shutdown call every [start] call returns nil,
    that is, every request is admitted; and when the admissions have been
    matched by as many [end] calls and trackerLoop has taken their commands,
    [activeRequests] is 0 again, its initial value. The run has at most
    [MaxInt64] steps. *)
Theorem admissions_matched_by_releases w now tr s :
  exec (init w now) tr = Some s →
  last_shutdown tr = None →
  Z.of_nat (length tr) ≤ MaxInt64 →
  Forall admitted_or_ended (history s)
  ∧ (buffered (commandChan (rt s)) = [] →
     admissions (history s) = releases (history s) →
     activeRequests (vars s) = 0).
Proof.
  intros H HN Hn.
  pose proof (Quiet_exec tr 0 (init w now) s (Quiet_init w now) HN) as HQ.
  destruct HQ as [? ? ? ? ? ? Hh Hb ?]; [lia|done|].
  split; [done|]. intros Hq Hc.
  rewrite Hq, inflight_counts, Hc in Hb. simpl in Hb. lia.
Qed.

Lemma admissions_matched_by_releases_witness :
  ∃ s, exec (init 30 0) [CallStart; CallStart; LoopCommand; CallEnd;
                         LoopCommand; CallEnd; LoopCommand; LoopCommand]
       = Some s
       ∧ Forall admitted_or_ended (history s)
       ∧ activeRequests (vars s) = 0.
Proof.
  destruct (exec (init 30 0) [CallStart; CallStart; LoopCommand; CallEnd;
              LoopCommand; CallEnd; LoopCommand; LoopCommand])
    as [s|] eqn:E; [|vm_compute in E; discriminate].
  exists s. split; [reflexivity|].
  destruct (admissions_matched_by_releases 30 0 _ s E) as [H1 H2].
  - reflexivity.
  - vm_compute. discriminate.
  - split; [exact H1|].
    vm_compute in E. injection E as <-. apply H2; reflexivity.
Defined.




(** C1, as the code has it: once trackerLoop has taken a shutdown command,
    so that [shuttingDown] is set, every later [start] call, whatever
    happens in between, returns the error stored by the most recent
    [shutdown] call when that error is not nil, and sends no command:
    the request is rejected with the stored reason. *)
Theorem start_rejected_once_shuttingDown w now tr1 tr2 s1 s2 message :
  exec (init w now) tr1 = Some s1 →
  shuttingDown (rt s1) ≠ 0 →
  exec s1 tr2 = Some s2 →
  last_shutdown (tr1 ++ tr2) = Some (Some message) →
  shuttingDown (rt s2) ≠ 0
  ∧ start (rt s2) = Done (Some message, rt s2).
Proof.
  intros H1 Hf H2 Hl.
  assert (Hf2 : shuttingDown (rt s2) ≠ 0) by by eapply shuttingDown_exec.
  split; [done|]. apply start_fast; [done|].
  assert (H : exec (init w now) (tr1 ++ tr2) = Some s2).
  { rewrite exec_app, H1. done. }
  by rewrite (shutdownReason_exec _ _ _ H), Hl.
Qed.

Lemma start_rejected_once_shuttingDown_witness :
  ∃ s2, exec (init 30 0) [CallStart; LoopCommand; CallShutdown (Some "Stop");
                          LoopCommand; CallStart; CallEnd] = Some s2
        ∧ start (rt s2) = Done (Some "Stop", rt s2).
Proof.
  destruct (exec (init 30 0)
              [CallStart; LoopCommand; CallShutdown (Some "Stop"); LoopCommand])
    as [s1|] eqn:E1; [|vm_compute in E1; discriminate].
  destruct (exec s1 [CallStart; CallEnd]) as [s2|] eqn:E2.
  2: { vm_compute in E1. injection E1 as <-. vm_compute in E2. discriminate. }
  exists s2. split.
  { change (exec (init 30 0)
             ([CallStart; LoopCommand; CallShutdown (Some "Stop"); LoopCommand]
              ++ [CallStart; CallEnd]) = Some s2).
    rewrite exec_app, E1. exact E2. }
  apply (start_rejected_once_shuttingDown 30 0 _ [CallStart; CallEnd]
           s1 s2 "Stop" E1); [|exact E2|reflexivity].
  vm_compute in E1. injection E1 as <-. vm_compute. discriminate.
Defined.

(** C1 as stated fails: a [start] call made after a [shutdown] call returns
    nil, the request is admitted, when trackerLoop has not taken the
    shutdown command yet, and also when the reason passed was nil. *)
Lemma start_admitted_after_shutdown_call :
  (∃ s, exec (init 30 0) [CallShutdown (Some "Stop"); CallStart] = Some s
        ∧ history s = [Started None; ShutdownCalled (Some "Stop")])
  ∧ (∃ s, exec (init 30 0) [CallShutdown None; LoopCommand; CallStart] = Some s
          ∧ history s = [Started None; ShutdownCalled None]).
Proof. split; eexists; split; vm_compute; reflexivity. Qed.

(** C5, as the code has it: every [shutdown] call overwrites the stored
    reason. The stored reason is always that of the most recent call; it is
    what [start] returns once [shuttingDown] is set; and the value that the
    stop sequence sends on [C], the one [Listen] receives, is the reason of
    the most recent [shutdown] call made before the stop sequence. *)
Theorem latest_shutdown_reason_wins w now tr s :
  exec (init w now) tr = Some s →
  shutdownReason (rt s) = PtrTo <$> last_shutdown tr
  ∧ (shuttingDown (rt s) ≠ 0 →
     ∃ r, last_shutdown tr = Some r ∧ start (rt s) = Done (r, rt s))
  ∧ (∀ ev s', step s ev = Some s' →
     sentStop (vars s) = false → sentStop (vars s') = true →
     ∃ r, last_shutdown tr = Some r ∧ sent (C (rt s')) = [r]).
Proof.
  intros H. pose proof (Inv_reachable _ _ _ _ H) as HI.
  assert (Hr : shutdownReason (rt s) = PtrTo <$> last_shutdown tr).
  { rewrite (shutdownReason_exec _ _ _ H). by destruct (last_shutdown tr). }
  split; [done|]. split.
  - intros Hf.
    assert (Hs : stopping (vars s) = true).
    { pose proof (inv_flag _ HI) as Hfl. by destruct (stopping (vars s)). }
    pose proof (Inv_stopping_reason s HI Hs) as Hne.
    destruct (last_shutdown tr) as [r|]; [|done].
    exists r. split; [done|]. by apply start_fast.
  - intros ev s' E Hs Hs'.
    destruct (stop_step _ _ _ HI E) as [[_ Heq]|(_ & _ & e & He & HC)];
      [congruence|].
    exists e. split; [|done].
    rewrite Hr in He. destruct (last_shutdown tr); by simplify_eq/=.
Qed.

Lemma latest_shutdown_reason_wins_witness :
  ∃ s, exec (init 30 0) [CallStart; LoopCommand; CallShutdown (Some "first");
                         LoopCommand; CallShutdown (Some "second")] = Some s
       ∧ shutdownReason (rt s) = Some (PtrTo (Some "second")).
Proof.
  destruct (exec (init 30 0)
              [CallStart; LoopCommand; CallShutdown (Some "first"); LoopCommand;
               CallShutdown (Some "second")])
    as [s|] eqn:E; [|vm_compute in E; discriminate].
  exists s. split; [reflexivity|].
  by destruct (latest_shutdown_reason_wins 30 0 _ s E) as [-> _].
Defined.

(** C5 as stated fails: after [shutdown] with reason "first" and then with
    reason "second", a rejected [start] returns "second", and the value sent
    on [C] when the grace timer fires is "second": the first reason is
    lost. *)
Lemma first_shutdown_reason_overwritten :
  ∃ s, exec (init 30 0)
         [CallStart; LoopCommand; CallShutdown (Some "first"); LoopCommand;
          CallShutdown (Some "second"); LoopCommand; CallStart; Tick 30;
          LoopTimer] = Some s
       ∧ history s = [Started (Some "second"); ShutdownCalled (Some "second");
                      ShutdownCalled (Some "first"); Started None]
       ∧ sent (C (rt s)) = [Some "second"].
Proof. eexists; split; [|split]; vm_compute; reflexivity. Qed.

(** C10, as the code has it: after [shutdown(nil)] has been taken by
    trackerLoop, and while nil is the stored reason, [start] returns nil and
    sends no command, so the request is admitted and not counted. Its [end]
    command, when trackerLoop is still running, lowers a count that was
    never raised for it, and the tracker can send its completion while
    admitted requests are still running (below: three admitted, one ended,
    completion sent). The count itself never becomes negative when the
    callers pair [start] and [end]: trackerLoop returns the first time the
    count reaches zero. *)
Theorem nil_reason_admits_uncounted w now tr s :
  exec (init w now) tr = Some s →
  (shuttingDown (rt s) ≠ 0 → last_shutdown tr = Some None →
   start (rt s) = Done (None, rt s))
  ∧ (paired (init w now) tr → Z.of_nat (length tr) ≤ MaxInt64 →
     0 ≤ activeRequests (vars s))
  ∧ (∃ s0, exec (init 30 0)
             [CallStart; LoopCommand; CallShutdown None; LoopCommand;
              CallStart; CallStart; CallEnd; LoopCommand] = Some s0
           ∧ paired (init 30 0)
               [CallStart; LoopCommand; CallShutdown None; LoopCommand;
                CallStart; CallStart; CallEnd; LoopCommand]
           ∧ sent (commandChan (rt s0))
             = [Cmd.startRequest; Cmd.shutdown; Cmd.endRequest]
           ∧ admissions (history s0) = 3%nat
           ∧ releases (history s0) = 1%nat
           ∧ activeRequests (vars s0) = 0
           ∧ sent (C (rt s0)) = [None]).
Proof.
  intros H. split; [|split].
  - intros Hf Hl. apply start_fast; [done|].
    by rewrite (shutdownReason_exec _ _ _ H), Hl.
  - intros HP Hn.
    eapply safe_nonneg, (Safe_exec tr 0 (init w now));
      [apply Inv_init|apply Safe_init|done|lia|done].
  - eexists. split; [vm_compute; reflexivity|].
    split; [|vm_compute; done].
    vm_compute. repeat split; intros; discriminate.
Qed.

Lemma nil_reason_admits_uncounted_witness :
  ∃ s, exec (init 30 0) [CallStart; LoopCommand; CallShutdown None;
                         LoopCommand] = Some s
       ∧ start (rt s) = Done (None, rt s).
Proof.
  destruct (exec (init 30 0)
              [CallStart; LoopCommand; CallShutdown None; LoopCommand])
    as [s|] eqn:E; [|vm_compute in E; discriminate].
  exists s. split; [reflexivity|].
  destruct (nil_reason_admits_uncounted 30 0 _ s E) as [H _].
  apply H; [|reflexivity].
  vm_compute in E. injection E as <-. vm_compute. discriminate.
Defined.

(** C10 as stated fails: when the callers pair [start] and [end], as the
    guarded handler does, no run of at most [MaxInt64] steps makes
    [activeRequests] negative, with or without a nil shutdown reason. *)
Lemma activeRequests_negative_unreachable :
  ¬ ∃ w now tr s,
      exec (init w now) tr = Some s
      ∧ paired (init w now) tr
      ∧ Z.of_nat (length tr) ≤ MaxInt64
      ∧ activeRequests (vars s) < 0.
Proof.
  intros (w & now & tr & s & H & HP & Hn & Hneg).
  assert (0 ≤ activeRequests (vars s)); [|lia].
  eapply safe_nonneg, (Safe_exec tr 0 (init w now));
    [apply Inv_init|apply Safe_init|done|lia|done].
Qed.

(** C4, where the code departs from it: when the wrapped handler panics,
    [ServeHTTP] has called [start], which sent a start command, and never
    calls [end]: the panic leaves the function before the call. Here on a
    fresh tracker, with a handler that panics at once. *)
Theorem ServeHTTP_panic_skips_end :
  ∃ c', ServeHTTP (mkEnv unit (λ _ _, "text/plain") (λ _, "{}"))
          (λ _ st, Panics st) tt
          (mkConn (startRequestTracker 30) newResponse tt) = Panics c'
        ∧ sent (commandChan (tracker_of c')) = [Cmd.startRequest].
Proof. eexists. split; reflexivity. Qed.

(** C8: on a rejected request, one whose [start] returns an error,
    [ServeHTTP] does not run the wrapped handler and leaves the tracker and
    the handler's state untouched; on a response not yet begun it sends
    status 503 with the header Content-Type set to the media type selected
    from the request among text/plain and application/json, and writes one
    body: the JSON encoding of the object with "error" = "Stopping" and
    "message" = the error text when application/json was selected, the error
    text itself otherwise. *)
Theorem rejected_request_gets_503 {Request D} (env : Env Request)
    (h : Handler Request D) req (c : conn D) message t' :
  start (tracker_of c) = Done (Some message, t') →
  wroteHeader (resp c) = None →
  let mt := SelectMediaType env req ["text/plain"; "application/json"] in
  let payload :=
    if decide (mt = "application/json")
    then json_Marshal env
           (<["error" := "Stopping"]> (<["message" := message]> ∅))
    else message in
  ∃ c', ServeHTTP env h req c = Done (tt, c')
        ∧ (∀ h' : Handler Request D, ServeHTTP env h' req c = Done (tt, c'))
        ∧ tracker_of c' = tracker_of c
        ∧ downstream c' = downstream c
        ∧ wroteHeader (resp c')
          = Some (StatusServiceUnavailable,
                  <["Content-Type" := [mt]]> (header (resp c)))
        ∧ header (resp c') !! "Content-Type" = Some [mt]
        ∧ body (resp c') = body (resp c) ++ [payload].
Proof.
  intros Hs Hw mt payload.
  rewrite (start_rejected_unchanged _ _ _ Hs) in Hs.
  eexists. split; [by apply ServeHTTP_rejected|].
  split; [intros h'; by apply ServeHTTP_rejected|].
  unfold Write, WriteHeader, Header_Set; simpl. rewrite Hw. simpl.
  repeat split; try done. apply lookup_insert_eq.
Qed.

Lemma rejected_request_gets_503_witness :
  ∃ c', ServeHTTP (mkEnv unit (λ _ _, "application/json") (λ _, "{}"))
          (λ _ st, Panics st) tt
          (mkConn (mkTracker (make 1) 30 1 (Some (PtrTo (Some "Stop")))
                             (make 100)) newResponse tt) = Done (tt, c')
        ∧ body (resp c') = ["{}"].
Proof.
  destruct (rejected_request_gets_503
              (mkEnv unit (λ _ _, "application/json") (λ _, "{}"))
              (λ _ st, Panics st) tt
              (mkConn (mkTracker (make 1) 30 1 (Some (PtrTo (Some "Stop")))
                                 (make 100)) newResponse tt)
              "Stop" _ eq_refl eq_refl)
    as (c' & H & _ & _ & _ & _ & _ & Hb).
  exists c'. split; [exact H|exact Hb].
Defined.

(** C9: [Listen] on a scaffold that is not open opens it: it creates the
    tracker, binds the listener and sets [open]. It then waits for a value
    on the tracker's channel [C]: run with nothing else happening, it
    blocks; run with the other goroutines taking the steps [tr] on the
    tracker while it waits, it blocks as long as they have sent nothing on
    [C], and once the stop sequence has sent a value it receives it, calls
    [Close] on the listener, once, and returns the value, which is the error
    that a [Shutdown] call passed. [Listen] is the only receiver on [C]. *)
Theorem Listen_returns_shutdown_reason ListenTCP now s il tr sys :
  open s = false →
  ListenTCP (insecurePort s) = inl il →
  exec (init DefaultGraceTimeout now) tr = Some sys →
  ReceiveC ∉ tr →
  (∀ s0, Listen ListenTCP now s0 = Listen_while (mret tt) ListenTCP now s0)
  ∧ (∃ s1, Listen_begin ListenTCP now s = Done (None, s1)
           ∧ open s1 = true
           ∧ tracker s1 = Some (init DefaultGraceTimeout now)
           ∧ insecureListener s1 = Some il)
  ∧ Listen ListenTCP now s = Blocks
  ∧ match Listen_while (tracker_run tr) ListenTCP now s with
    | Blocks => sent (C (rt sys)) = []
    | Done (err, s3) =>
        sent (C (rt sys)) = [err]
        ∧ CallShutdown err ∈ tr
        ∧ open s3 = true
        ∧ insecureListener s3 = Some (Close il)
        ∧ closeCalls (Close il) = S (closeCalls il)
    | Panics _ => False
    end.
Proof.
  intros Ho Hb H Hn.
  assert (Hbegin : Listen_begin ListenTCP now s
                   = Done (None, mkScaffold (insecurePort s) true
                                   (Some (init DefaultGraceTimeout now))
                                   (Some il))).
  { unfold Listen_begin, Open, gets, modify, mbind, mret, M_bind, M_ret.
    rewrite Ho. simpl. rewrite Hb. reflexivity. }
  split; [intros s0; apply Listen_while_nothing|].
  split; [eexists; split; [exact Hbegin|done]|].
  split.
  { unfold Listen. unfold mbind at 1. unfold M_bind. rewrite Hbegin.
    reflexivity. }
  unfold Listen_while. unfold mbind at 1. unfold M_bind at 1.
  rewrite Hbegin. unfold mbind, M_bind.
  rewrite (tracker_run_spec tr _ (init DefaultGraceTimeout now)) by done.
  rewrite H.
  pose proof (Listen_end_reachable _ _ _ _
                (with_tracker sys (mkScaffold (insecurePort s) true
                   (Some (init DefaultGraceTimeout now)) (Some il)))
                il H Hn eq_refl eq_refl) as HL.
  destruct (Listen_end _) as [[err s3]| |]; [|done..].
  destruct HL as (? & ? & ? & ?). done.
Qed.

Lemma Listen_returns_shutdown_reason_witness :
  ∃ s3, Listen_while
          (tracker_run [CallShutdown (Some "Validate"); LoopCommand])
          (λ _, inl (mkListener "[::]:8080" 0)) 0
          (SetInsecurePort 8080 CreateHTTPScaffold)
        = Done (Some "Validate", s3)
        ∧ insecureListener s3 = Some (mkListener "[::]:8080" 1).
Proof.
  destruct (exec (init DefaultGraceTimeout 0)
              [CallShutdown (Some "Validate"); LoopCommand])
    as [sys|] eqn:E; [|vm_compute in E; discriminate].
  destruct (Listen_returns_shutdown_reason
              (λ _, inl (mkListener "[::]:8080" 0)) 0
              (SetInsecurePort 8080 CreateHTTPScaffold)
              (mkListener "[::]:8080" 0) _ sys eq_refl eq_refl E)
    as (_ & _ & _ & H).
  - intros Hin. by repeat (apply elem_of_cons in Hin as [?|Hin]; [done|]);
      apply elem_of_nil in Hin.
  - vm_compute in E. injection E as <-.
    destruct (Listen_while _ _ _ _) as [[err s3]| |]; [|done..].
    destruct H as (Hs & _ & _ & Hc & _). simpl in Hs.
    injection Hs as <-. exists s3. split; [reflexivity|exact Hc].
Defined.

(** * More properties of the code *)

(** ** The tracker *)

Lemma exec_cons ev tr s s' :
  exec s (ev :: tr) = Some s' ↔ ∃ s1, step s ev = Some s1 ∧ exec s1 tr = Some s'.
Proof.
  simpl. destruct (step s ev) as [s1|]; split.
  - intros H. eauto.
  - by intros (? & ? & ?); simplify_eq.
  - done.
  - by intros (? & ? & ?).
Qed.

(** What one step adds to the history. *)
Lemma history_step s ev s' :
  Inv s → step s ev = Some s' →
  history s' = history s
  ∨ ∃ o, history s' = o :: history s ∧ o ≠ Panicked
         ∧ ∀ e, o = Started (Some e) →
                shutdownReason (rt s) = Some (PtrTo (Some e)).
Proof.
  intros HI H. pose proof (Inv_stopping_reason s HI) as Hsr.
  pose proof (inv_flag _ HI) as Hf.
  step_inv H; cbn; auto.
  all: try (right; eexists; split; [done|]; split; [done|];
            intros; simplify_eq; done).
  exfalso. destruct (stopping (vars s)); [by apply Hsr|done].
Qed.

(** X1: the unchecked type assertions on the stored reason are safe in
    [start]: in no run does a [start] call panic, and in no reachable state
    would one. [shuttingDown] is only set by trackerLoop after it has taken
    a shutdown command, which is sent after the reason has been stored. *)
Theorem start_never_panics w now tr s :
  exec (init w now) tr = Some s →
  (Panicked ∉ history s) ∧ (∀ t, start (rt s) ≠ Panics t).
Proof.
  intros H. split.
  - revert s H. induction tr as [|ev tr IH] using rev_ind; intros s H.
    + simpl in H. simplify_eq. apply not_elem_of_nil.
    + apply exec_snoc in H as (s1 & H1 & E).
      destruct (history_step _ _ _ (Inv_reachable _ _ _ _ H1) E)
        as [->|(o & -> & Ho & _)]; [by apply IH|].
      apply not_elem_of_cons. split; [done|by apply IH].
  - intros t Ht. pose proof (Inv_reachable _ _ _ _ H) as HI.
    pose proof (Inv_stopping_reason s HI) as Hsr.
    pose proof (inv_flag _ HI) as Hf.
    unfold_ops. destruct (decide (shuttingDown (rt s) ≠ 0)) as [Hn|Hn].
    + destruct (stopping (vars s)); [|done].
      destruct (shutdownReason (rt s)) as [[|e]|]; [done|done|by apply Hsr].
    + by destruct (decide _).
Qed.

Lemma start_never_panics_witness :
  ∃ s, exec (init 30 0) [CallShutdown None; LoopCommand; CallStart] = Some s
       ∧ Panicked ∉ history s.
Proof.
  destruct (exec (init 30 0) [CallShutdown None; LoopCommand; CallStart])
    as [s|] eqn:E; [|vm_compute in E; discriminate].
  exists s. split; [reflexivity|].
  by destruct (start_never_panics 30 0 _ s E).
Defined.

(** A step that panics in trackerLoop is the timer case, taken before any
    reason was stored. *)
Lemma crash_step d s ev s' :
  Inv s → step s ev = Some s' → crashed s' = true →
  (stopping (vars s) = false → sentStop (vars s) = false →
   graceTimer (vars s) = Some d) →
  d ≤ clock s' ∧ shutdownReason (rt s') = None.
Proof.
  intros HI H Hc Ht. pose proof (Inv_stopping_reason s HI) as Hsr.
  pose proof (λ q, Inv_head_reason s q HI) as Hhead.
  step_inv H; cbn in *; try done.
  - exfalso. use_eqs. by apply Hsr.
  - exfalso. by eapply Hhead.
  - destruct (stopping (vars s)) eqn:Hst; [exfalso; by apply Hsr|].
    split; [|done]. specialize (Ht eq_refl eq_refl). simplify_eq. done.
Qed.

(** X2: trackerLoop panics only in one case: the timer it created with the
    largest duration expires when no reason was ever stored. In a run in
    which [shutdown] has been called, or the clock has not reached that
    expiry, trackerLoop has not panicked. *)
Theorem trackerLoop_panics_only_on_first_timer w now tr s :
  exec (init w now) tr = Some s →
  is_Some (last_shutdown tr) ∨ clock s < when now MaxInt64 →
  crashed s = false.
Proof.
  intros H Hor. destruct (crashed s) eqn:Hc; [exfalso|done].
  destruct tr as [|ev tr _] using rev_ind.
  { simpl in H. by simplify_eq. }
  apply exec_snoc in H as (s1 & H1 & E).
  pose proof (Inv_reachable _ _ _ _ H1) as HI.
  destruct (crash_step (when now MaxInt64) _ _ _ HI E Hc) as [Hd Hr].
  { by apply (first_timer_exec _ tr (init w now)); [apply Inv_init| |]. }
  destruct Hor as [Hs|Hlt]; [|lia].
  assert (H : exec (init w now) (tr ++ [ev]) = Some s).
  { apply exec_snoc. eauto. }
  rewrite (shutdownReason_exec _ _ _ H) in Hr.
  destruct Hs as [r Hs]. by rewrite Hs in Hr.
Qed.

Lemma trackerLoop_panics_only_on_first_timer_witness :
  ∃ s, exec (init 30 0) [Tick MaxInt64; CallShutdown None; LoopTimer] = Some s
       ∧ crashed s = false.
Proof.
  destruct (exec (init 30 0) [Tick MaxInt64; CallShutdown None; LoopTimer])
    as [s|] eqn:E; [|vm_compute in E; discriminate].
  exists s. split; [reflexivity|].
  apply (trackerLoop_panics_only_on_first_timer 30 0 _ s E).
  left. vm_compute. by eexists.
Defined.

Lemma processed_send {A} (c : chan A) x :
  (nrecv c ≤ length (sent c))%nat →
  processed (mkChan (sent c ++ [x]) (nrecv c) (cap c)) = processed c.
Proof. intros H. unfold processed; simpl. by rewrite take_app_le. Qed.

Lemma processed_recv {A} (c : chan A) x q :
  buffered c = x :: q →
  processed (mkChan (sent c) (S (nrecv c)) (cap c)) = processed c ++ [x].
Proof. intros H. unfold processed; simpl. by apply take_S_buffered in H as [-> _]. Qed.

Lemma Counted_init w now : Counted 0 (init w now).
Proof. split; simpl; [done|lia]. Qed.

Lemma Counted_step n s ev s' :
  Inv s → Counted n s → n < MaxInt64 → step s ev = Some s' →
  Counted (n + 1) s'.
Proof.
  intros HI [] Hn H. pose proof (inv_nrecv_cmd _ HI) as Hrecv.
  step_inv H.
  all: split; cbn in *; try lia; try done.
  all: rewrite ?processed_send by done; try done.
  all: try match goal with
         | H : buffered _ = _ :: _ |- _ => rewrite (processed_recv _ _ _ H)
         end.
  all: rewrite ?balance_snoc; simpl.
  all: rewrite ?wrap64_id by lia; lia.
Qed.

Lemma Counted_exec tr n s s' :
  Inv s → Counted n s → n + Z.of_nat (length tr) ≤ MaxInt64 →
  exec s tr = Some s' → Counted (n + Z.of_nat (length tr)) s'.
Proof.
  revert n s. induction tr as [|ev tr IH]; intros n s HI HC Hn H; simpl in *.
  - simplify_eq. by rewrite Z.add_0_r.
  - destruct (step s ev) as [s1|] eqn:E; [|done].
    replace (n + Z.of_nat (S (length tr))) with (n + 1 + Z.of_nat (length tr)) by lia.
    apply (IH (n + 1) s1); [by apply (Inv_step s ev)| |lia|done].
    apply (Counted_step n s ev); [done|done|lia|done].
Qed.

(** X3: in every run, paired or not, [activeRequests] is the number of start
    commands that trackerLoop has taken minus the number of end commands it
    has taken: commands still in the channel, and requests admitted without
    a command, do not count. The run has at most [MaxInt64] steps. *)
Theorem activeRequests_counts_taken_commands w now tr s :
  exec (init w now) tr = Some s →
  Z.of_nat (length tr) ≤ MaxInt64 →
  activeRequests (vars s) = balance (processed (commandChan (rt s))).
Proof.
  intros H Hn.
  eapply counted_balance, (Counted_exec tr 0 (init w now));
    [apply Inv_init|apply Counted_init|lia|done].
Qed.

Lemma activeRequests_counts_taken_commands_witness :
  ∃ s, exec (init 30 0) [CallEnd; CallStart; CallStart; LoopCommand;
                         LoopCommand] = Some s
       ∧ activeRequests (vars s)
         = balance (processed (commandChan (rt s))).
Proof.
  destruct (exec (init 30 0) [CallEnd; CallStart; CallStart; LoopCommand;
                              LoopCommand])
    as [s|] eqn:E; [|vm_compute in E; discriminate].
  exists s. split; [reflexivity|].
  apply (activeRequests_counts_taken_commands 30 0 _ s E).
  vm_compute. discriminate.
Defined.

(** X4: [start] rejects only with an error that was passed to [shutdown]:
    every error a [start] call returned in a run is the reason of a
    [shutdown] call of that run. *)
Theorem rejection_reason_was_passed_to_shutdown w now tr s e :
  exec (init w now) tr = Some s →
  Started (Some e) ∈ history s →
  CallShutdown (Some e) ∈ tr.
Proof.
  revert s. induction tr as [|ev tr IH] using rev_ind; intros s H He.
  - simpl in H. simplify_eq. by apply elem_of_nil in He.
  - apply exec_snoc in H as (s1 & H1 & E). apply elem_of_app. left.
    destruct (history_step _ _ _ (Inv_reachable _ _ _ _ H1) E)
      as [Heq|(o & Heq & _ & Ho)]; rewrite Heq in He; [by apply (IH s1)|].
    apply elem_of_cons in He as [<-|He]; [|by apply (IH s1)].
    specialize (Ho e eq_refl).
    rewrite (shutdownReason_exec _ _ _ H1) in Ho. simpl in Ho.
    apply last_shutdown_elem. destruct (last_shutdown tr); by simplify_eq.
Qed.

Lemma rejection_reason_was_passed_to_shutdown_witness :
  CallShutdown (Some "Stop")
  ∈ [CallStart; LoopCommand; CallShutdown (Some "Stop"); LoopCommand; CallStart].
Proof.
  destruct (exec (init 30 0)
              [CallStart; LoopCommand; CallShutdown (Some "Stop"); LoopCommand;
               CallStart])
    as [s|] eqn:E; [|vm_compute in E; discriminate].
  apply (rejection_reason_was_passed_to_shutdown 30 0 _ s "Stop" E).
  vm_compute in E. injection E as <-. simpl. apply elem_of_cons. by left.
Defined.

(** Once trackerLoop has returned, a step takes nothing from the command
    channel; it can only add to it, and not when it is full. *)
Lemma dead_step s ev s' :
  sentStop (vars s) = true →
  (nrecv (commandChan (rt s)) ≤ length (sent (commandChan (rt s))))%nat →
  step s ev = Some s' →
  vars s' = vars s
  ∧ cap (commandChan (rt s')) = cap (commandChan (rt s))
  ∧ (nrecv (commandChan (rt s')) ≤ length (sent (commandChan (rt s'))))%nat
  ∧ ∃ l, buffered (commandChan (rt s')) = buffered (commandChan (rt s)) ++ l
         ∧ (length (buffered (commandChan (rt s)))
            = cap (commandChan (rt s)) → l = []).
Proof.
  intros Hs Hn H. step_inv H; cbn.
  all: rewrite ?buffered_send by done.
  all: rewrite ?length_app; simpl.
  all: repeat split; try done; try lia.
  all: try (exists []; by rewrite app_nil_r).
  all: eexists; split; [done|intros; lia].
Qed.

Lemma dead_exec tr s s' :
  sentStop (vars s) = true →
  (nrecv (commandChan (rt s)) ≤ length (sent (commandChan (rt s))))%nat →
  exec s tr = Some s' →
  vars s' = vars s
  ∧ cap (commandChan (rt s')) = cap (commandChan (rt s))
  ∧ ∃ l, buffered (commandChan (rt s')) = buffered (commandChan (rt s)) ++ l
         ∧ (length (buffered (commandChan (rt s)))
            = cap (commandChan (rt s)) → l = []).
Proof.
  revert s. induction tr as [|ev tr IH]; intros s Hs Hn H; simpl in H.
  - simplify_eq. repeat split. exists []. by rewrite app_nil_r.
  - destruct (step s ev) as [s1|] eqn:E; [|done].
    destruct (dead_step _ _ _ Hs Hn E) as (Hv & Hc & Hn1 & l1 & Hb1 & Hf1).
    destruct (IH s1) as (Hv' & Hc' & l2 & Hb2 & Hf2); [congruence|done|done|].
    split; [congruence|]. split; [congruence|].
    exists (l1 ++ l2). split; [by rewrite Hb2, Hb1, app_assoc|].
    intros Hfull. rewrite (Hf1 Hfull) in *. rewrite app_nil_r in Hb1.
    rewrite Hf2; [done|]. by rewrite Hb1, Hc.
Qed.

Lemma cap_commandChan_step s ev s' :
  step s ev = Some s' →
  cap (commandChan (rt s')) = cap (commandChan (rt s)).
Proof. intros H. step_inv H; cbn; done. Qed.

Lemma cap_commandChan_exec tr s s' :
  exec s tr = Some s' →
  cap (commandChan (rt s')) = cap (commandChan (rt s)).
Proof.
  revert s. induction tr as [|ev tr IH]; intros s H; simpl in H.
  - by simplify_eq.
  - destruct (step s ev) as [s1|] eqn:E; [|done].
    rewrite (IH _ H). by eapply cap_commandChan_step.
Qed.

(** A call that has to send a command blocks on a full channel. *)
Lemma full_blocks s :
  length (buffered (commandChan (rt s))) = cap (commandChan (rt s)) →
  step s CallEnd = None ∧ ∀ r, step s (CallShutdown r) = None.
Proof.
  intros Hfull. unfold step, call. unfold_ops.
  destruct (crashed s); [done|]. simpl.
  rewrite !decide_False by lia. done.
Qed.

(** X5: once trackerLoop has returned, nothing takes commands from the
    command channel any more: whatever happens next, the commands that were
    waiting stay, and later ones queue behind them. When 100 commands are
    waiting, the channel's capacity, every later [end] call and [shutdown]
    call blocks, and keeps blocking in every later state. *)
Theorem commands_pile_up_after_stop w now tr s tr' s' :
  exec (init w now) tr = Some s →
  sentStop (vars s) = true →
  exec s tr' = Some s' →
  (∃ l, buffered (commandChan (rt s'))
        = buffered (commandChan (rt s)) ++ l)
  ∧ (length (buffered (commandChan (rt s))) = 100%nat →
     buffered (commandChan (rt s')) = buffered (commandChan (rt s))
     ∧ step s' CallEnd = None
     ∧ ∀ r, step s' (CallShutdown r) = None).
Proof.
  intros H Hs H'.
  pose proof (inv_nrecv_cmd _ (Inv_reachable _ _ _ _ H)) as Hn.
  pose proof (cap_commandChan_exec _ _ _ H) as Hcap. simpl in Hcap.
  destruct (dead_exec _ _ _ Hs Hn H') as (_ & Hc & l & Hb & Hf).
  split; [by exists l|]. intros Hfull.
  rewrite Hf in Hb by congruence. rewrite app_nil_r in Hb.
  split; [done|]. apply full_blocks. congruence.
Qed.

Lemma commands_pile_up_after_stop_witness :
  ∃ s', exec (init 30 0)
          ([CallShutdown (Some "Stop"); LoopCommand] ++ replicate 100 CallEnd
           ++ [CallStart; Tick 5]) = Some s'
        ∧ step s' CallEnd = None.
Proof.
  destruct (exec (init 30 0)
              ([CallShutdown (Some "Stop"); LoopCommand]
               ++ replicate 100 CallEnd))
    as [s|] eqn:E; [|vm_compute in E; discriminate].
  destruct (exec s [CallStart; Tick 5]) as [s'|] eqn:E'.
  2: { vm_compute in E. injection E as <-. vm_compute in E'. discriminate. }
  exists s'. split.
  { rewrite app_assoc, exec_app, E. exact E'. }
  destruct (commands_pile_up_after_stop 30 0 _ s [CallStart; Tick 5] s' E)
    as [_ H];
    [|exact E'|].
  - vm_compute in E. by injection E as <-.
  - apply H. vm_compute in E. by injection E as <-.
Defined.

(** X6: a shutdown command that trackerLoop takes while it is already
    draining sets the grace timer again: the tracker stays Draining with the
    same count, and the timer now expires [shutdownWait] after this command,
    not after the first one. The callers pair [start] and [end]; the run has
    at most [MaxInt64] steps. *)
Theorem repeated_shutdown_rearms_timer w now tr s s' :
  exec (init w now) tr = Some s →
  paired (init w now) tr →
  Z.of_nat (length tr) ≤ MaxInt64 →
  phase_of (vars s) = Draining →
  head (buffered (commandChan (rt s))) = Some Cmd.shutdown →
  step s LoopCommand = Some s' →
  phase_of (vars s') = Draining
  ∧ activeRequests (vars s') = activeRequests (vars s)
  ∧ graceTimer (vars s') = Some (when (clock s) w)
  ∧ sent (C (rt s')) = [].
Proof.
  intros H HP Hn [Hss Hst]%phase_of_Draining Hh E.
  pose proof (Inv_reachable _ _ _ _ H) as HI.
  pose proof (Safe_exec tr 0 (init w now) s (Inv_init w now) (Safe_init w now)
                HP) as HS.
  rewrite Z.add_0_l in HS. specialize (HS Hn H).
  pose proof (safe_draining _ _ HS Hst Hss) as Ha.
  pose proof (inv_C_alive _ HI Hss) as HC.
  pose proof (shutdownWait_exec _ _ _ H) as Hw. simpl in Hw. rewrite <- Hw.
  clear HS HP H Hw. destruct HI.
  step_inv E; cbn in *; simplify_eq/=; try lia.
  unfold phase_of; simpl. done.
Qed.

Lemma repeated_shutdown_rearms_timer_witness :
  ∃ s s', exec (init 30 0)
            [CallStart; LoopCommand; CallShutdown (Some "Stop"); LoopCommand;
             Tick 20; CallShutdown (Some "Stop")] = Some s
          ∧ graceTimer (vars s) = Some 30
          ∧ step s LoopCommand = Some s'
          ∧ graceTimer (vars s') = Some 50.
Proof.
  destruct (exec (init 30 0)
              [CallStart; LoopCommand; CallShutdown (Some "Stop"); LoopCommand;
               Tick 20; CallShutdown (Some "Stop")])
    as [s|] eqn:E; [|vm_compute in E; discriminate].
  destruct (step s LoopCommand) as [s'|] eqn:E'.
  2: { vm_compute in E. injection E as <-. vm_compute in E'. discriminate. }
  exists s, s'. split; [reflexivity|].
  split; [vm_compute in E; by injection E as <-|].
  split; [exact E'|].
  destruct (repeated_shutdown_rearms_timer 30 0 _ s s' E)
    as (_ & _ & -> & _); [| | | |exact E'|].
  - vm_compute. repeat split; intros; discriminate.
  - vm_compute. discriminate.
  - vm_compute in E. by injection E as <-.
  - vm_compute in E. by injection E as <-.
  - vm_compute in E. by injection E as <-.
Defined.

(** ** The guarded handler *)

(** X7: a request that arrives while [shuttingDown] is not set, on a command
    channel with room for two commands, whose wrapped handler returns, is
    served by [ServeHTTP] with exactly one start command followed by one end
    command sent; the response and the handler's state are what the wrapped
    handler left, [ServeHTTP] adds nothing to them. *)
Theorem ServeHTTP_admitted_sends_start_then_end {Request D}
    (env : Env Request) (h : Handler Request D) req (c : conn D) w d :
  shuttingDown (tracker_of c) = 0 →
  (nrecv (commandChan (tracker_of c))
   ≤ length (sent (commandChan (tracker_of c))))%nat →
  (length (buffered (commandChan (tracker_of c))) + 2
   ≤ cap (commandChan (tracker_of c)))%nat →
  handler_ServeHTTP req (resp c, downstream c) = Done (tt, (w, d)) →
  ∃ t', ServeHTTP env h req c = Done (tt, mkConn t' w d)
        ∧ sent (commandChan t')
          = sent (commandChan (tracker_of c))
            ++ [Cmd.startRequest; Cmd.endRequest]
        ∧ nrecv (commandChan t') = nrecv (commandChan (tracker_of c))
        ∧ shuttingDown t' = 0
        ∧ shutdownReason t' = shutdownReason (tracker_of c)
        ∧ C t' = C (tracker_of c).
Proof.
  intros Hf Hn Hroom Hh. eexists. split.
  - eapply ServeHTTP_returns; [|exact Hh|].
    + unfold_ops. rewrite decide_False by (by rewrite Hf; intros ?).
      rewrite decide_True by lia. reflexivity.
    + unfold_ops. simpl. rewrite buffered_send by done.
      rewrite length_app. simpl. rewrite decide_True by lia. reflexivity.
  - simpl. by rewrite <- app_assoc.
Qed.

Lemma ServeHTTP_admitted_sends_start_then_end_witness :
  ∃ t', ServeHTTP (mkEnv unit (λ _ _, "text/plain") (λ _, "{}"))
          TestListener tt (mkConn (startRequestTracker 30) newResponse tt)
        = Done (tt, mkConn t'
                  (mkResp {["Content-Type" := ["text/plain"]]}
                     (Some (StatusOK, {["Content-Type" := ["text/plain"]]}))
                     ["Hello, World!"]) tt)
        ∧ sent (commandChan t') = [Cmd.startRequest; Cmd.endRequest].
Proof.
  destruct (ServeHTTP_admitted_sends_start_then_end
              (mkEnv unit (λ _ _, "text/plain") (λ _, "{}"))
              TestListener tt (mkConn (startRequestTracker 30) newResponse tt)
              (mkResp {["Content-Type" := ["text/plain"]]}
                 (Some (StatusOK, {["Content-Type" := ["text/plain"]]}))
                 ["Hello, World!"]) tt)
    as (t' & H & Hs & _); [reflexivity|simpl; lia|simpl; lia|reflexivity|].
  exists t'. split; [exact H|exact Hs].
Defined.

(** X8: while the stored shutdown reason is nil and [shuttingDown] is set,
    [ServeHTTP] runs the wrapped handler and then sends an end command for
    which no start command was sent: the command channel gains exactly one
    end command. *)
Theorem ServeHTTP_nil_reason_sends_unmatched_end {Request D}
    (env : Env Request) (h : Handler Request D) req (c : conn D) w d :
  shuttingDown (tracker_of c) ≠ 0 →
  shutdownReason (tracker_of c) = Some (PtrTo None) →
  (length (buffered (commandChan (tracker_of c)))
   < cap (commandChan (tracker_of c)))%nat →
  handler_ServeHTTP req (resp c, downstream c) = Done (tt, (w, d)) →
  ∃ t', ServeHTTP env h req c = Done (tt, mkConn t' w d)
        ∧ sent (commandChan t')
          = sent (commandChan (tracker_of c)) ++ [Cmd.endRequest].
Proof.
  intros Hf Hr Hroom Hh. eexists. split.
  - eapply ServeHTTP_returns; [by apply start_fast|exact Hh|].
    unfold_ops. rewrite decide_True by done. reflexivity.
  - done.
Qed.

Lemma ServeHTTP_nil_reason_sends_unmatched_end_witness :
  ∃ t', ServeHTTP (mkEnv unit (λ _ _, "text/plain") (λ _, "{}"))
          TestListener tt
          (mkConn (mkTracker (make 1) 30 1 (Some (PtrTo None)) (make 100))
                  newResponse tt)
        = Done (tt, mkConn t'
                  (mkResp {["Content-Type" := ["text/plain"]]}
                     (Some (StatusOK, {["Content-Type" := ["text/plain"]]}))
                     ["Hello, World!"]) tt)
        ∧ sent (commandChan t') = [Cmd.endRequest].
Proof.
  destruct (ServeHTTP_nil_reason_sends_unmatched_end
              (mkEnv unit (λ _ _, "text/plain") (λ _, "{}"))
              TestListener tt
              (mkConn (mkTracker (make 1) 30 1 (Some (PtrTo None)) (make 100))
                      newResponse tt)
              (mkResp {["Content-Type" := ["text/plain"]]}
                 (Some (StatusOK, {["Content-Type" := ["text/plain"]]}))
                 ["Hello, World!"]) tt)
    as (t' & H & Hs); [done|reflexivity|simpl; lia|reflexivity|].
  exists t'. split; [exact H|exact Hs].
Defined.

(** ** Signals *)

Lemma wrap64_overflow z : MaxInt64 < z < 2 ^ 64 → wrap64 z = z - 2 ^ 64.
Proof.
  unfold wrap64, MaxInt64. intros H.
  replace (z + 2 ^ 63) with (z - 2 ^ 63 + 1 * 2 ^ 64) by lia.
  rewrite Z_mod_plus_full, Z.mod_small; lia.
Qed.

(** The loop of [dumpStack] keeps [w < stackSize]: it has no way out. *)
Lemma dumpStack_loop_no_exit rtm fuel i w stackSize :
  well_behaved rtm →
  0 < stackSize ≤ MaxInt64 → w < stackSize →
  dumpStack_loop rtm fuel i w stackSize = Spinning
  ∨ dumpStack_loop rtm fuel i w stackSize = DumpPanics.
Proof.
  intros [Hst Hal]. revert i w stackSize.
  induction fuel as [|fuel IH]; intros i w n Hn Hw; simpl.
  - rewrite decide_True by done. by left.
  - rewrite decide_True by done.
    pose proof (Hst i n ltac:(lia)) as Hr.
    destruct (decide (Stack rtm i n = n)) as [He|Hne].
    + destruct (alloc rtm (wrap64 (n * 2))) eqn:Ha; [|by right].
      apply Hal in Ha.
      destruct (decide (n * 2 ≤ MaxInt64)) as [Hle|Hgt].
      * rewrite wrap64_id in * by lia. apply IH; lia.
      * rewrite wrap64_overflow in Ha by (unfold MaxInt64 in *; lia).
        unfold MaxInt64 in *. lia.
    + apply IH; lia.
Qed.

Lemma dumpStack_loop_spins rtm fuel i w :
  (∀ i, Stack rtm i 32767 < 32767) → w < 32767 →
  dumpStack_loop rtm fuel i w 32767 = Spinning.
Proof.
  intros Hfit. revert i w. induction fuel as [|fuel IH]; intros i w Hw; simpl.
  - by rewrite decide_True.
  - rewrite decide_True by done. specialize (Hfit i).
    rewrite decide_False by lia. by apply IH.
Qed.

(** X9: [dumpStack] never gets to print. After each iteration of its loop
    [w < stackSize] holds again, since [runtime.Stack] returns at most the
    buffer's length and the buffer is doubled when it returns exactly that:
    whatever the number of iterations, the outcome is not [Printed]. When the
    stack traces fit the first buffer, the loop runs for ever. *)
Theorem dumpStack_never_prints rtm fuel :
  well_behaved rtm →
  (∀ w, dumpStack rtm fuel ≠ Printed w)
  ∧ (alloc rtm 32767 = true → (∀ i, Stack rtm i 32767 < 32767) →
     dumpStack rtm fuel = Spinning).
Proof.
  intros Hwb. split.
  - intros w. unfold dumpStack. destruct (alloc rtm 32767); [|done].
    destruct (dumpStack_loop_no_exit rtm fuel 0 0 32767 Hwb) as [->| ->];
      [by vm_compute|lia|done|done].
  - intros Ha Hfit. unfold dumpStack. rewrite Ha.
    by apply dumpStack_loop_spins.
Qed.

Lemma dumpStack_never_prints_witness :
  dumpStack (mkRuntime (λ _ n, Z.min 5000 n) (λ n, bool_decide (0 ≤ n))) 1000
  = Spinning.
Proof.
  apply dumpStack_never_prints.
  - split.
    + intros i n Hn. simpl. lia.
    + intros n Hn. simpl in Hn. by apply bool_decide_eq_true in Hn.
  - reflexivity.
  - intros i. simpl. lia.
Defined.

(** X10: a SIGHUP ends the handling of signals. The goroutine of
    [CatchSignals] enters [dumpStack] and does not come back: whatever
    signals follow, SIGINT and SIGTERM included, it calls [Shutdown] for none
    of them and leaves the scaffold as it was. *)
Theorem SIGHUP_ends_signal_handling rtm fuel rest s :
  well_behaved rtm →
  catch_signals rtm fuel (SIGHUP :: rest) s = Done (InDumpStack, s)
  ∨ catch_signals rtm fuel (SIGHUP :: rest) s = Panics s.
Proof.
  intros Hwb. simpl. unfold dumpStack.
  destruct (alloc rtm 32767); [|by right].
  destruct (dumpStack_loop_no_exit rtm fuel 0 0 32767 Hwb) as [->| ->];
    [by vm_compute|lia| |]; auto.
Qed.

Lemma SIGHUP_ends_signal_handling_witness :
  catch_signals (mkRuntime (λ _ n, Z.min 5000 n) (λ n, bool_decide (0 ≤ n)))
    10 [SIGHUP; SIGTERM; SIGINT] CreateHTTPScaffold
  = Done (InDumpStack, CreateHTTPScaffold).
Proof.
  destruct (SIGHUP_ends_signal_handling
              (mkRuntime (λ _ n, Z.min 5000 n) (λ n, bool_decide (0 ≤ n)))
              10 [SIGTERM; SIGINT] CreateHTTPScaffold) as [H|H].
  - split.
    + intros i n Hn. simpl. lia.
    + intros n Hn. simpl in Hn. by apply bool_decide_eq_true in Hn.
  - exact H.
  - vm_compute in H. discriminate.
Defined.

(** X11: a SIGINT or SIGTERM that arrives while the tracker does not exist
    yet, that is before [Open] or [Listen] created it, makes the goroutine of
    [CatchSignals] panic in [Shutdown], on the nil tracker; [CatchSignals]
    itself does not create one. *)
Theorem signal_before_Open_panics rtm fuel sig rest s :
  tracker s = None → sig ≠ SIGHUP →
  catch_signals rtm fuel (sig :: rest) s = Panics s.
Proof.
  intros Ht Hs. destruct sig; try done.
  all: simpl; unfold mbind, M_bind, Shutdown; by rewrite Ht.
Qed.

Lemma signal_before_Open_panics_witness :
  catch_signals (mkRuntime (λ _ n, Z.min 5000 n) (λ n, bool_decide (0 ≤ n)))
    10 [SIGINT] (SetInsecurePort 8080 CreateHTTPScaffold)
  = Panics (SetInsecurePort 8080 CreateHTTPScaffold).
Proof. by apply signal_before_Open_panics. Defined.

(** ** The scaffold *)

Lemma try_step_settling s ev :
  settling ev → ∃ tr, exec s tr = Some (try_step s ev) ∧ Forall settling tr.
Proof.
  intros Hev. unfold try_step. destruct (step s ev) as [s'|] eqn:E.
  - exists [ev]. simpl. rewrite E. split; [done|]. by constructor.
  - by exists [].
Qed.

Lemma drain_settling n s :
  ∃ tr, exec s tr = Some (drain n s) ∧ Forall settling tr.
Proof.
  revert s. induction n as [|n IH]; intros s; simpl.
  - by exists [].
  - destruct (try_step_settling s LoopCommand) as (tr1 & E1 & F1); [by left|].
    destruct (IH (try_step s LoopCommand)) as (tr2 & E2 & F2).
    exists (tr1 ++ tr2). rewrite exec_app, E1. split; [done|].
    by apply Forall_app.
Qed.

Lemma settle_settling s :
  ∃ tr, exec s tr = Some (settle s) ∧ Forall settling tr.
Proof.
  unfold settle.
  destruct (drain_settling (length (buffered (commandChan (rt s)))) s)
    as (tr1 & E1 & F1).
  set (s1 := drain _ s) in *.
  destruct (try_step_settling s1 (Tick (time_left s1))) as (tr2 & E2 & F2).
  { right; right. by eexists. }
  destruct (try_step_settling (try_step s1 (Tick (time_left s1))) LoopTimer)
    as (tr3 & E3 & F3).
  { right; by left. }
  exists (tr1 ++ tr2 ++ tr3). split.
  - rewrite exec_app, E1. simpl. rewrite exec_app, E2. done.
  - apply Forall_app. split; [done|]. apply Forall_app. by split.
Qed.

Lemma settling_no_call tr :
  Forall settling tr → (ReceiveC ∉ tr) ∧ (∀ r, CallShutdown r ∉ tr).
Proof.
  induction 1 as [|ev tr Hev _ [IH1 IH2]].
  - split; [|intros r]; apply not_elem_of_nil.
  - split; [|intros r]; apply not_elem_of_cons; (split; [|done]).
    + by destruct Hev as [->|[->|[d ->]]].
    + by destruct Hev as [->|[->|[d ->]]].
Qed.

(** X12: after the last [Shutdown], [Listen] returns within [shutdownWait]
    and the time trackerLoop needs to take its timer case, even when admitted
    requests never end. On an open scaffold whose trackerLoop has taken a
    shutdown command, with no shutdown command waiting, there is a time at
    most [shutdownWait] away such that, whatever the other goroutines do
    until then without calling [Shutdown] again, from that time on [Listen]
    returns an error that a [Shutdown] call passed and closes the listener:
    at once, or as soon as trackerLoop has taken the timer case, which is
    ready. *)
Theorem Listen_returns_by_last_deadline ListenTCP now0 w now tr sys s il :
  exec (init w now) tr = Some sys →
  ReceiveC ∉ tr →
  stopping (vars sys) = true →
  Cmd.shutdown ∉ buffered (commandChan (rt sys)) →
  open s = true →
  tracker s = Some sys →
  insecureListener s = Some il →
  ∃ d, d ≤ clock sys + Z.max 0 w
       ∧ ∀ tr' sys',
           exec sys tr' = Some sys' →
           ReceiveC ∉ tr' →
           (∀ r, CallShutdown r ∉ tr') →
           d ≤ clock sys' →
           ∃ err s',
             CallShutdown err ∈ tr
             ∧ insecureListener s' = Some (Close il)
             ∧ ((tracker_run tr';; Listen ListenTCP now0) s = Done (err, s')
                ∨ ((tracker_run tr';; Listen ListenTCP now0) s = Blocks
                   ∧ (tracker_run (tr' ++ [LoopTimer]);; Listen ListenTCP now0) s
                     = Done (err, s'))).
Proof.
  intros H Hn Hst Hq Ho Ht Hl.
  pose proof (Inv_reachable _ _ _ _ H) as HI.
  assert (∃ d, d ≤ clock sys + Z.max 0 w
               ∧ (sentStop (vars sys) = true ∨ graceTimer (vars sys) = Some d))
    as (d & Hd & Hti).
  { destruct (sentStop (vars sys)) eqn:Hss.
    - exists (clock sys). split; [lia|by left].
    - destruct (timer_within_reachable w now tr sys H) as (d & ? & ?);
        [done..|].
      exists d. split; [done|by right]. }
  exists d. split; [done|]. intros tr' sys' E Hn' Hns Hc.
  destruct (deadline_exec d tr' sys sys' HI E Hns Hst Hq Hti) as [Hst' Ht'].
  assert (Hall : exec (init w now) (tr ++ tr') = Some sys').
  { rewrite exec_app, H. done. }
  assert (Hnall : ReceiveC ∉ tr ++ tr').
  { intros [?|?]%elem_of_app; done. }
  pose proof (Inv_exec _ _ _ HI E) as HI'.
  destruct (sentStop (vars sys')) eqn:Hss'.
  - pose proof (Listen_end_reachable w now _ sys' (with_tracker sys' s) il
                  Hall Hnall eq_refl Hl) as HL.
    pose proof (inv_C_dead _ HI' Hss') as Hlen.
    destruct (Listen_end (with_tracker sys' s)) as [[err s']| |] eqn:EL;
      [|done|by rewrite HL in Hlen].
    destruct HL as (_ & Hin & _ & Hcl).
    exists err, s'. split; [by eapply no_shutdown_in_app|]. split; [done|].
    left. rewrite (run_then_Listen _ _ _ _ sys Ht Ho), E. done.
  - destruct Ht' as [?|Ht']; [done|].
    destruct (timer_fires sys' d HI' Hst' Hss' Ht' Hc) as (sys2 & E2 & Hlen).
    assert (Hall2 : exec (init w now) ((tr ++ tr') ++ [LoopTimer]) = Some sys2).
    { apply exec_snoc. eauto. }
    assert (Hnall2 : ReceiveC ∉ (tr ++ tr') ++ [LoopTimer]).
    { intros [?|?%list_elem_of_singleton]%elem_of_app; done. }
    pose proof (Listen_end_reachable w now _ sys2 (with_tracker sys2 s) il
                  Hall2 Hnall2 eq_refl Hl) as HL.
    destruct (Listen_end (with_tracker sys2 s)) as [[err s']| |] eqn:EL;
      [|done|by rewrite HL in Hlen].
    destruct HL as (_ & Hin & _ & Hcl).
    exists err, s'. split.
    { apply (no_shutdown_in_app tr (tr' ++ [LoopTimer])).
      - by rewrite app_assoc.
      - intros r [?|?%list_elem_of_singleton]%elem_of_app; [by eapply Hns|done]. }
    split; [done|]. right. split.
    + rewrite (run_then_Listen _ _ _ _ sys Ht Ho), E.
      apply (Listen_end_blocks _ sys'); [done|].
      unfold buffered. by rewrite (inv_C_alive _ HI' Hss'), drop_nil.
    + rewrite (run_then_Listen _ _ _ _ sys Ht Ho).
      assert (exec sys (tr' ++ [LoopTimer]) = Some sys2) as ->.
      { apply exec_snoc. eauto. }
      done.
Qed.

Lemma Listen_returns_by_last_deadline_witness :
  ∃ sys s',
    exec (init 30 0)
      [CallStart; LoopCommand; CallShutdown (Some "Stop"); LoopCommand]
    = Some sys
    ∧ (tracker_run [Tick 30; LoopTimer];; Listen (λ _, inr "in use") 7)
        (mkScaffold 8080 true (Some sys) (Some (mkListener ":8080" 0)))
      = Done (Some "Stop", s')
    ∧ insecureListener s' = Some (mkListener ":8080" 1).
Proof.
  destruct (exec (init 30 0)
              [CallStart; LoopCommand; CallShutdown (Some "Stop"); LoopCommand])
    as [sys|] eqn:E; [|vm_compute in E; discriminate].
  destruct (exec sys [Tick 30]) as [sys'|] eqn:E'.
  2: { vm_compute in E. injection E as <-. vm_compute in E'. discriminate. }
  destruct (Listen_returns_by_last_deadline (λ _, inr "in use") 7 30 0 _ sys
              (mkScaffold 8080 true (Some sys) (Some (mkListener ":8080" 0)))
              (mkListener ":8080" 0) E)
    as (d & Hd & H); try reflexivity.
  - intros Hin. by repeat (apply elem_of_cons in Hin as [?|Hin]; [done|]);
      apply elem_of_nil in Hin.
  - vm_compute in E. by injection E as <-.
  - vm_compute in E. injection E as <-. vm_compute. apply not_elem_of_nil.
  - destruct (H [Tick 30] sys' E') as (err & s' & Hin & Hcl & HL).
    + intros Hin. by repeat (apply elem_of_cons in Hin as [?|Hin]; [done|]);
        apply elem_of_nil in Hin.
    + intros r Hin. by repeat (apply elem_of_cons in Hin as [?|Hin]; [done|]);
        apply elem_of_nil in Hin.
    + assert (clock sys = 0) by (vm_compute in E; by injection E as <-).
      assert (clock sys' = 30).
      { vm_compute in E. injection E as <-. vm_compute in E'.
        by injection E' as <-. }
      simpl in Hd. lia.
    + exists sys, s'. split; [reflexivity|].
      assert (err = Some "Stop") as ->.
      { repeat (apply elem_of_cons in Hin as [Hin|Hin]; [by simplify_eq|]).
        by apply elem_of_nil in Hin. }
      split; [|exact Hcl].
      destruct HL as [HL|[_ HL]]; [|exact HL].
      exfalso. vm_compute in E. injection E as <-. vm_compute in HL.
      discriminate.
Defined.

Lemma no_shutdown_call tr r : last_shutdown tr = None → CallShutdown r ∉ tr.
Proof.
  induction tr as [|ev tr IH]; intros H; [apply not_elem_of_nil|].
  apply last_shutdown_cons in H as [Hev H].
  apply not_elem_of_cons. split; [|by apply IH].
  intros <-. done.
Qed.

(** X13: a SIGINT or SIGTERM, when it is the first signal and no [Shutdown]
    was called before, makes [Listen] return [ErrSignalCaught]. On an open
    scaffold the goroutine of [CatchSignals] calls
    [Shutdown(ErrSignalCaught)] once and returns, leaving the signals that
    follow unhandled. When the tracker is then left to settle, [Listen]
    receives [ErrSignalCaught], closes the listener and returns it; and
    whatever the other goroutines do instead without calling [Shutdown],
    [Listen] returns nothing else. The command channel has room for the
    shutdown command. *)
Theorem signal_makes_Listen_return_ErrSignalCaught
    rtm fuel sig rest ListenTCP now0 w now tr sys s il :
  exec (init w now) tr = Some sys →
  last_shutdown tr = None →
  ReceiveC ∉ tr →
  crashed sys = false →
  (length (buffered (commandChan (rt sys))) < 100)%nat →
  open s = true →
  tracker s = Some sys →
  insecureListener s = Some il →
  sig ≠ SIGHUP →
  ∃ sys1,
    step sys (CallShutdown ErrSignalCaught) = Some sys1
    ∧ catch_signals rtm fuel (sig :: rest) s
      = Done (Returned, with_tracker sys1 s)
    ∧ (∃ tr' s2,
         Forall settling tr'
         ∧ (catch_signals rtm fuel (sig :: rest);; tracker_run tr';;
            Listen ListenTCP now0) s = Done (ErrSignalCaught, s2)
         ∧ insecureListener s2 = Some (Close il))
    ∧ ∀ tr', ReceiveC ∉ tr' → (∀ r, CallShutdown r ∉ tr') →
        match (catch_signals rtm fuel (sig :: rest);; tracker_run tr';;
               Listen ListenTCP now0) s with
        | Done (err, s2) =>
            err = ErrSignalCaught ∧ insecureListener s2 = Some (Close il)
        | Blocks => True
        | Panics _ => False
        end.
Proof.
  intros H Hl Hn Hc Hroom Ho Ht Hil Hsig.
  pose proof (cap_commandChan_exec _ _ _ H) as Hcap. simpl in Hcap.
  assert (∃ sys1, step sys (CallShutdown ErrSignalCaught) = Some sys1)
    as [sys1 E].
  { unfold step, call. rewrite Hc. unfold_ops. simpl.
    rewrite decide_True by lia. by eexists. }
  assert (H1 : exec (init w now) (tr ++ [CallShutdown ErrSignalCaught])
               = Some sys1).
  { apply exec_snoc. eauto. }
  assert (Hn1 : ReceiveC ∉ tr ++ [CallShutdown ErrSignalCaught]).
  { intros [?|Hin]%elem_of_app; [done|].
    by apply list_elem_of_singleton in Hin. }
  assert (Hcatch : catch_signals rtm fuel (sig :: rest) s
                   = Done (Returned, with_tracker sys1 s)).
  { destruct sig; try done.
    all: simpl; unfold mbind, M_bind, Shutdown; rewrite Ht, E; done. }
  assert (Hthen : ∀ tr', (catch_signals rtm fuel (sig :: rest);;
                          tracker_run tr';; Listen ListenTCP now0) s
                         = match exec sys1 tr' with
                           | Some sys2 => Listen_end (with_tracker sys2 s)
                           | None => Blocks
                           end).
  { intros tr'. unfold mbind at 1. unfold M_bind at 1. rewrite Hcatch.
    rewrite (run_then_Listen _ _ _ _ sys1); [|done..].
    by destruct (exec sys1 tr'). }
  assert (Hsig_only : ∀ tr' e, (∀ r, CallShutdown r ∉ tr') →
            CallShutdown e ∈ (tr ++ [CallShutdown ErrSignalCaught]) ++ tr' →
            e = ErrSignalCaught).
  { intros tr' e Hns Hin.
    apply no_shutdown_in_app in Hin; [|done].
    apply elem_of_app in Hin as [Hin|Hin].
    - by apply no_shutdown_call in Hin.
    - apply list_elem_of_singleton in Hin. by simplify_eq. }
  exists sys1. split; [done|]. split; [done|]. split.
  - destruct (settle_settling sys1) as (tr' & E' & F').
    destruct (settling_no_call _ F') as [Hn' Hs'].
    assert (Hall : exec (init w now)
                     ((tr ++ [CallShutdown ErrSignalCaught]) ++ tr')
                   = Some (settle sys1)).
    { rewrite exec_app, H1. done. }
    pose proof (Inv_reachable _ _ _ _ H1) as HI1.
    assert (Hin : Cmd.shutdown ∈ sent (commandChan (rt sys1))).
    { apply (shutdown_sent (tr ++ [CallShutdown ErrSignalCaught])
               (init w now)); [done|right; apply is_Some_last_shutdown_snoc]. }
    assert (Hc1 : crashed sys1 = false).
    { destruct (crashed sys1) eqn:Hc1; [|done].
      destruct (inv_crashed _ HI1 Hc1) as [Hr _].
      by destruct (inv_sent_reason _ HI1 Hin). }
    pose proof (settle_stops sys1 HI1 Hc1 Hin) as Hlen.
    pose proof (Listen_end_reachable w now _ (settle sys1)
                  (with_tracker (settle sys1) s) il Hall) as HL.
    destruct (Listen_end (with_tracker (settle sys1) s))
      as [[err s2]| |] eqn:EL.
    + destruct HL as (_ & Hin' & _ & Hcl); [|done..|].
      { intros [?|?]%elem_of_app; done. }
      exists tr', s2. split; [done|]. split; [|done].
      rewrite Hthen, E', EL. f_equal. f_equal. by eapply Hsig_only.
    + destruct HL; [|done..]. intros [?|?]%elem_of_app; done.
    + rewrite HL in Hlen; [done| |done..].
      intros [?|?]%elem_of_app; done.
  - intros tr' Hn' Hns. rewrite Hthen.
    destruct (exec sys1 tr') as [sys2|] eqn:E'; [|done].
    assert (Hall : exec (init w now)
                     ((tr ++ [CallShutdown ErrSignalCaught]) ++ tr')
                   = Some sys2).
    { rewrite exec_app, H1. done. }
    pose proof (Listen_end_reachable w now _ sys2 (with_tracker sys2 s) il
                  Hall) as HL.
    destruct (Listen_end (with_tracker sys2 s)) as [[err s2]| |]; [|..].
    + destruct HL as (_ & Hin' & _ & Hcl); [|done..|].
      { intros [?|?]%elem_of_app; done. }
      split; [by eapply Hsig_only|done].
    + apply HL; [|done..]. intros [?|?]%elem_of_app; done.
    + done.
Qed.

Lemma signal_makes_Listen_return_ErrSignalCaught_witness :
  ∃ tr' s2,
    (catch_signals
       (mkRuntime (λ _ n, Z.min 5000 n) (λ n, bool_decide (0 ≤ n)))
       10 [SIGTERM; SIGHUP];; tracker_run tr';;
     Listen (λ _, inr "in use") 7)
      (mkScaffold 8080 true (Some (init 30 0)) (Some (mkListener ":8080" 0)))
    = Done (ErrSignalCaught, s2)
    ∧ insecureListener s2 = Some (mkListener ":8080" 1).
Proof.
  destruct (signal_makes_Listen_return_ErrSignalCaught
              (mkRuntime (λ _ n, Z.min 5000 n) (λ n, bool_decide (0 ≤ n)))
              10 SIGTERM [SIGHUP] (λ _, inr "in use") 7 30 0 [] (init 30 0)
              (mkScaffold 8080 true (Some (init 30 0))
                 (Some (mkListener ":8080" 0)))
              (mkListener ":8080" 0))
    as (sys1 & _ & _ & (tr' & s2 & _ & H & Hc) & _);
    [reflexivity|reflexivity|apply not_elem_of_nil|reflexivity|simpl; lia
    |reflexivity|reflexivity|reflexivity|done|].
  exists tr', s2. split; [exact H|exact Hc].
Defined.

(** X14: a [Shutdown] made after [Open] and before [Listen] is honoured.
    With no request in flight, trackerLoop stops as soon as it takes the
    command, and [Listen], which finds the scaffold open and does not open
    it again, returns the reason at once and closes the listener that [Open]
    bound. *)
Theorem Shutdown_before_Listen_is_honoured ListenTCP ListenTCP' now now' s il r :
  ListenTCP (insecurePort s) = inl il →
  ∃ s', (Open ListenTCP now;; Shutdown r;; tracker_step LoopCommand;;
         Listen ListenTCP' now') s = Done (r, s')
        ∧ open s' = true
        ∧ insecureListener s' = Some (Close il).
Proof.
  intros Hb. eexists.
  unfold Open, Shutdown, tracker_step, Listen, Listen_begin, Listen_end,
    await_C, close_listener, gets, modify, mbind, mret, M_bind, M_ret.
  rewrite Hb. simpl. done.
Qed.

Lemma Shutdown_before_Listen_is_honoured_witness :
  ∃ s', (Open (λ _, inl (mkListener ":8080" 0)) 0;;
         Shutdown (Some "Validate");; tracker_step LoopCommand;;
         Listen (λ _, inr "address already in use") 5)
          (SetInsecurePort 8080 CreateHTTPScaffold)
        = Done (Some "Validate", s').
Proof.
  destruct (Shutdown_before_Listen_is_honoured
              (λ _, inl (mkListener ":8080" 0))
              (λ _, inr "address already in use") 0 5
              (SetInsecurePort 8080 CreateHTTPScaffold)
              (mkListener ":8080" 0) (Some "Validate") eq_refl)
    as (s' & H & _).
  exists s'. exact H.
Defined.

(** X15: [Open] binds the port once. After an [Open] that succeeded,
    [InsecureAddress] gives the address of the listener that [net.ListenTCP]
    returned, [Listen] does not call [Open] again and leaves the scaffold,
    its tracker and its listener as they are, and a later [SetInsecurePort]
    does not change the address. *)
Theorem Listen_after_Open_does_not_rebind ListenTCP ListenTCP' now now' s s1 :
  Open ListenTCP now s = Done (None, s1) →
  Listen_begin ListenTCP' now' s1 = Done (None, s1)
  ∧ tracker s1 = Some (init DefaultGraceTimeout now)
  ∧ ∃ il, ListenTCP (insecurePort s) = inl il
          ∧ InsecureAddress s1 = Done (Addr il, s1)
          ∧ ∀ p, InsecureAddress (SetInsecurePort p s1)
                 = Done (Addr il, SetInsecurePort p s1).
Proof.
  unfold Open. intros H.
  destruct (ListenTCP (insecurePort s)) as [il|e] eqn:Hb; simplify_eq.
  split; [done|]. split; [done|]. exists il. done.
Qed.

Lemma Listen_after_Open_does_not_rebind_witness :
  ∃ s1, Open (λ _, inl (mkListener ":8080" 0)) 0
          (SetInsecurePort 8080 CreateHTTPScaffold) = Done (None, s1)
        ∧ Listen_begin (λ _, inr "address already in use") 5 s1
          = Done (None, s1).
Proof.
  eexists. split; [reflexivity|].
  by destruct (Listen_after_Open_does_not_rebind
                 (λ _, inl (mkListener ":8080" 0))
                 (λ _, inr "address already in use") 0 5
                 (SetInsecurePort 8080 CreateHTTPScaffold) _ eq_refl).
Defined.

(** X16: while the tracker is draining, the grace timer is set and the time
    left on it is never more than [shutdownWait]: from any moment of the
    draining, trackerLoop can take the timer case, which stops it, after at
    most [shutdownWait] nanoseconds. *)
Theorem grace_timer_within_shutdownWait w now tr s :
  exec (init w now) tr = Some s →
  phase_of (vars s) = Draining →
  ∃ d, graceTimer (vars s) = Some d ∧ d ≤ clock s + Z.max 0 w.
Proof.
  intros H [Hss Hst]%phase_of_Draining.
  assert (Ht : timer_within w s); [|by apply Ht].
  clear Hss Hst. revert s H.
  induction tr as [|ev tr IH] using rev_ind; intros s H.
  - simpl in H. simplify_eq. by intros ?.
  - apply exec_snoc in H as (s1 & H1 & E).
    pose proof (shutdownWait_exec _ _ _ H1) as Hw. simpl in Hw.
    rewrite <- Hw. apply (timer_within_step s1 ev).
    + by eapply Inv_reachable.
    + done.
    + rewrite Hw. by apply IH.
Qed.

Lemma grace_timer_within_shutdownWait_witness :
  ∃ s d, exec (init 30 0)
           [CallStart; LoopCommand; CallShutdown (Some "Stop"); LoopCommand;
            Tick 10] = Some s
         ∧ graceTimer (vars s) = Some d ∧ d ≤ clock s + 30.
Proof.
  destruct (exec (init 30 0)
              [CallStart; LoopCommand; CallShutdown (Some "Stop"); LoopCommand;
               Tick 10])
    as [s|] eqn:E; [|vm_compute in E; discriminate].
  destruct (grace_timer_within_shutdownWait 30 0 _ s E) as (d & Hd & Hle).
  { vm_compute in E. by injection E as <-. }
  exists s, d. split; [reflexivity|]. split; [exact Hd|exact Hle].
Defined.

(** ** Certificates *)

(** X17: an encrypted certificate file is always refused. [getCertificate]
    decodes the certificate file without a password function, so whatever
    password function and key file the caller gives, the result is the error
    "Cannot read encrypted file without password" and an empty certificate. *)
Theorem getCertificate_refuses_encrypted_certificate {PrivateKey}
    (lib : Library PrivateKey) certFile keyFile pwFunc pb :
  ReadFile lib certFile = inl pb →
  IsEncryptedPEMBlock lib (pem_Decode lib pb) = Some true →
  getCertificate lib certFile keyFile pwFunc
  = Some (mkCertificate [] None,
          Some "Cannot read encrypted file without password").
Proof.
  intros Hr He. unfold getCertificate, decodePEM. rewrite Hr. simpl.
  rewrite He. done.
Qed.

Lemma getCertificate_refuses_encrypted_certificate_witness :
  getCertificate four_files "enc.pem" "key.pem" (Some (λ _, [Byte.x70]))
  = Some (mkCertificate [] None,
          Some "Cannot read encrypted file without password").
Proof.
  apply (getCertificate_refuses_encrypted_certificate
           four_files "enc.pem" "key.pem" _ [Byte.x03]);
    vm_compute; reflexivity.
Defined.

(** X18: what a certificate that [getCertificate] returns without an error
    is made of. The certificate file held an unencrypted block, of any type,
    whose bytes are the one certificate of the chain; the key file held a
    block of type "RSA PRIVATE KEY", and the private key was parsed from its
    bytes, or, for an encrypted block, from what [DecryptPEMBlock] made of it
    with the password of [pwFunc]. With an error no private key is
    returned. *)
Theorem getCertificate_result {PrivateKey}
    (lib : Library PrivateKey) certFile keyFile pwFunc c err :
  getCertificate lib certFile keyFile pwFunc = Some (c, err) →
  match err with
  | Some _ => PrivateKey_ c = None
  | None =>
      ∃ cpb cb kpb kb pk,
        ReadFile lib certFile = inl cpb ∧ pem_Decode lib cpb = Some cb
        ∧ IsEncryptedPEMBlock lib (Some cb) = Some false
        ∧ ReadFile lib keyFile = inl kpb ∧ pem_Decode lib kpb = Some kb
        ∧ Type_ kb = "RSA PRIVATE KEY"
        ∧ c = mkCertificate [Bytes cb] (Some pk)
        ∧ ((IsEncryptedPEMBlock lib (Some kb) = Some false
            ∧ ParsePKCS1PrivateKey lib (Bytes kb) = inl pk)
           ∨ (∃ f dec, IsEncryptedPEMBlock lib (Some kb) = Some true
                ∧ pwFunc = Some f
                ∧ DecryptPEMBlock lib (Some kb) (f ()) = Some (inl dec)
                ∧ ParsePKCS1PrivateKey lib dec = inl pk))
  end.
Proof.
  unfold getCertificate, decodePEM. intros H.
  destruct (ReadFile lib certFile) as [cpb|e] eqn:Hc; simpl in H;
    [|by simplify_eq].
  destruct (IsEncryptedPEMBlock lib (pem_Decode lib cpb)) as [[]|] eqn:Hce;
    simpl in H; [by simplify_eq| |done].
  destruct (pem_Decode lib cpb) as [cb|] eqn:Hcb; simpl in H; [|done].
  destruct (ReadFile lib keyFile) as [kpb|e] eqn:Hk; simpl in H;
    [|by simplify_eq].
  destruct (IsEncryptedPEMBlock lib (pem_Decode lib kpb)) as [[]|] eqn:Hke;
    simpl in H; [| |done].
  - destruct pwFunc as [f|]; simpl in H; [|by simplify_eq].
    destruct (DecryptPEMBlock lib (pem_Decode lib kpb) (f ()))
      as [[dec|e]|] eqn:Hd; simpl in H; [|by simplify_eq|done].
    destruct (pem_Decode lib kpb) as [kb|] eqn:Hkb; simpl in H; [|done].
    destruct (decide (Type_ kb = "RSA PRIVATE KEY")); [|by simplify_eq].
    destruct (ParsePKCS1PrivateKey lib dec) as [pk|e'] eqn:Hp;
      [|by simplify_eq].
    simplify_eq. exists cpb, cb, kpb, kb, pk.
    repeat (split; [done|]). right. by exists f, dec.
  - destruct (pem_Decode lib kpb) as [kb|] eqn:Hkb; simpl in H; [|done].
    destruct (decide (Type_ kb = "RSA PRIVATE KEY")); [|by simplify_eq].
    destruct (ParsePKCS1PrivateKey lib (Bytes kb)) as [pk|e'] eqn:Hp;
      [|by simplify_eq].
    simplify_eq. exists cpb, cb, kpb, kb, pk.
    repeat (split; [done|]). by left.
Qed.

Lemma getCertificate_result_witness :
  ∃ c pk, getCertificate four_files "cert.pem" "key.pem" None = Some (c, None)
          ∧ c = mkCertificate [[Byte.x30]] (Some pk).
Proof.
  destruct (getCertificate four_files "cert.pem" "key.pem" None)
    as [[c [e|]]|] eqn:E;
    pose proof E as E'; vm_compute in E'; try discriminate E'.
  destruct (getCertificate_result four_files "cert.pem" "key.pem" None c None E)
    as (cpb & cb & kpb & kb & pk & Hr & Hd & _ & _ & _ & _ & Hc & _).
  exists c, pk. split; [reflexivity|].
  vm_compute in Hr. injection Hr as <-.
  vm_compute in Hd. injection Hd as <-.
  exact Hc.
Defined.

(** X19: a file without PEM data never gives bytes. When [pem.Decode] finds
    no block, [decodePEM] does not return without an error, whatever the
    library does with the nil block, since its own return statements read the
    block's fields; and when [IsEncryptedPEMBlock] panics on a nil block,
    [decodePEM] panics, and so does [getCertificate] on such a certificate
    file. *)
Theorem decodePEM_without_PEM_data {PrivateKey}
    (lib : Library PrivateKey) fileName pwFunc pb :
  ReadFile lib fileName = inl pb →
  pem_Decode lib pb = None →
  (∀ bytes ty, decodePEM lib fileName pwFunc ≠ Some (bytes, ty, None))
  ∧ (IsEncryptedPEMBlock lib None = None →
     decodePEM lib fileName pwFunc = None
     ∧ ∀ keyFile, getCertificate lib fileName keyFile pwFunc = None).
Proof.
  intros Hr Hd. split.
  - intros bytes ty. unfold decodePEM. rewrite Hr, Hd. simpl.
    destruct (IsEncryptedPEMBlock lib None) as [[]|]; simpl; [|done..].
    destruct pwFunc as [f|]; simpl; [|done].
    by destruct (DecryptPEMBlock lib None (f ())) as [[]|].
  - intros Hn. unfold getCertificate, decodePEM. rewrite Hr, Hd. simpl.
    by rewrite Hn.
Qed.

Lemma decodePEM_without_PEM_data_witness :
  decodePEM four_files "empty.pem" None = None
  ∧ getCertificate four_files "empty.pem" "key.pem" None = None.
Proof.
  destruct (decodePEM_without_PEM_data four_files "empty.pem" None [])
    as [_ H]; [vm_compute; reflexivity..|].
  destruct H as [H1 H2]; [vm_compute; reflexivity|].
  split; [exact H1|exact (H2 "key.pem")].
Defined.
